(** * StreamHub: the player store and the audio engine

    A shallow embedding of [src/stores/usePlayerStore.ts] (the zustand
    store: transport, queue, volume and equaliser actions) and of
    [lib/audio/AudioEngine.ts] (the Web Audio graph it drives), followed by
    the properties of the queue index, of [next]/[previous], of the
    equaliser and of the volume that the specification states.

    Conventions.
    - A JavaScript number used as an index is a [Z]; a number used as a
      quantity (seconds, gain in dB, volume) is a [Q].  [Math.max],
      [Math.min] and the comparisons are exact on numbers; NaN and the
      infinities are outside the model.
    - Two roundings of the platform are not modelled.  A [gain.value] is
      an audio parameter, held as a 32-bit float: the model keeps the
      number assigned to it, where reading it back gives the nearest
      single-precision number (0.699999988079071 for 0.7), the same for
      the same assignment.  The product [Math.random() * queue.length] is
      rounded to a double before [Math.floor]: the model floors the exact
      product, which can be one less when the exact product lies just
      below an integer.  No property below rests on the position a
      shuffle picks.
    - The store and the engine are two singletons; an action is a function
      on the pair of their states.
    - What the platform decides (whether the audio graph can be built,
      whether a file can be read, whether the element accepts [play()],
      the value of [Math.random()]) is an explicit argument of the action.
    - A rejected promise or a thrown exception is the completion [Throw],
      returned together with the state reached when it was raised. *)

From Stdlib Require Import ZArith QArith Qround Lia.
From stdpp Require Import base list strings gmap.

Local Open Scope Z_scope.

(** ** JavaScript arrays *)

Module JsArray.

Section Ops.
Context {A : Type}.

(** [a.length] *)
Definition length (a : list A) : Z := Z.of_nat (List.length a).

(** [a[i]]: [None] stands for the [undefined] read outside the array. *)
Definition get (a : list A) (i : Z) : option A :=
  if i <? 0 then None else a !! Z.to_nat i.

(** [a.filter((x, i) => p(x, i))] *)
Fixpoint filter_from (p : A → Z → bool) (i : Z) (a : list A) : list A :=
  match a with
  | [] => []
  | x :: r =>
      if p x i then x :: filter_from p (i + 1) r else filter_from p (i + 1) r
  end.

Definition filter (p : A → Z → bool) (a : list A) : list A :=
  filter_from p 0 a.

(** [a.splice(start, deleteCount, ...items)]: the array after the call and
    the array of removed elements that the call returns.  A negative
    [start] counts from the end, and both arguments are clamped to the
    array. *)
Definition splice_start (start : Z) (a : list A) : Z :=
  if start <? 0 then Z.max (length a + start) 0 else Z.min start (length a).

Definition splice_count (start deleteCount : Z) (a : list A) : Z :=
  Z.min (Z.max deleteCount 0) (length a - splice_start start a).

Definition splice (start deleteCount : Z) (items : list A) (a : list A)
  : list A * list A :=
  let k := Z.to_nat (splice_start start a) in
  let d := Z.to_nat (splice_count start deleteCount a) in
  (take k a ++ items ++ drop (k + d)%nat a, take d (drop k a)).

(** [a.findIndex(p)] *)
Fixpoint findIndex_from (p : A → bool) (i : Z) (a : list A) : Z :=
  match a with
  | [] => -1
  | x :: r => if p x then i else findIndex_from p (i + 1) r
  end.

Definition findIndex (p : A → bool) (a : list A) : Z := findIndex_from p 0 a.

(** [a.indexOf(x)] *)
Definition indexOf `{EqDecision A} (x : A) (a : list A) : Z :=
  findIndex (λ y, bool_decide (y = x)) a.
End Ops.

(** A slot of a number array.  [a[i] = v] past the end leaves empty slots
    (holes) behind it; a spread [[...a]] reads every hole as [undefined]. *)
Inductive slot : Type :=
  | Empty
  | Undefined
  | Number (q : Q).

Definition spread_slot (s : slot) : slot :=
  match s with
  | Empty => Undefined
  | _ => s
  end.

(** [[...a]] *)
Definition spread (a : list slot) : list slot := spread_slot <$> a.

(** The largest array index is 2^32 - 2. *)
Definition max_index : Z := 4294967294.

(** [a[i] = v].  Below the length the slot is overwritten; at or past it the
    array grows to [i + 1] slots; a key that is not an array index (negative,
    or beyond [max_index]) becomes a named property and the slots stay as
    they are. *)
Definition assign (a : list slot) (i : Z) (v : Q) : list slot :=
  if (i <? 0) || (max_index <? i) then a
  else if i <? length a then <[Z.to_nat i := Number v]> a
  else a ++ replicate (Z.to_nat i - List.length a) Empty ++ [Number v].

Definition is_number (s : slot) : Prop :=
  match s with
  | Number _ => True
  | _ => False
  end.

End JsArray.

(** ** Numbers *)

(** [Math.max(a, b)] and [Math.min(a, b)]; on a tie both arguments denote
    the same number. *)
Definition Math_max (a b : Q) : Q := if Qle_bool a b then b else a.
Definition Math_min (a b : Q) : Q := if Qle_bool b a then b else a.

(** [a > b] *)
Definition Qgt_bool (a b : Q) : bool := negb (Qle_bool a b).

(** ** Types ([src/types/index.ts]) *)

Inductive TrackSource : Type := local | spotify | stream.

(** A [FileSystemFileHandle] is kept as the name of the file it opens. *)
Record Track : Type := mkTrack {
  id : string;
  title : string;
  artist : string;
  album : string;
  duration : Q;
  source : TrackSource;
  fileHandle : option string;
  streamUrl : option string
}.

Record EQPreset : Type := mkEQPreset {
  name : string;
  bands : list Q
}.

Inductive RepeatMode : Type := off | one | all.

#[global] Instance RepeatMode_eq_dec : EqDecision RepeatMode.
Proof. solve_decision. Defined.

Inductive ViewType : Type := home | library | search | nowPlaying | settings.

Inductive LibraryTab : Type := tab_local | tab_spotify | tab_playlists.

(** How a call ends. *)
Inductive completion : Type := Normal | Throw.

(** What the platform decides during an asynchronous action. *)
Record Platform : Type := mkPlatform {
  context_ok : bool;   (* the AudioContext and its nodes can be created *)
  getFile_ok : bool;   (* [fileHandle.getFile()] resolves *)
  play_ok : bool       (* [audioElement.play()] resolves *)
}.

(** ** The audio engine ([lib/audio/AudioEngine.ts]) *)

Module AudioEngine.

(** EQ frequency bands (Hz) *)
Definition EQ_FREQUENCIES : list Z :=
  [32; 64; 125; 250; 500; 1000; 2000; 4000; 8000; 16000].

(** Default EQ presets *)
Definition EQ_PRESETS : list EQPreset :=
  [ mkEQPreset "Flat" [0; 0; 0; 0; 0; 0; 0; 0; 0; 0]%Q;
    mkEQPreset "Bass Boost" [6; 5; 4; 2; 0; 0; 0; 0; 0; 0]%Q;
    mkEQPreset "Treble Boost" [0; 0; 0; 0; 0; 1; 2; 4; 5; 6]%Q;
    mkEQPreset "Vocal" [-2; -1; 0; 2; 4; 4; 3; 1; 0; -1]%Q;
    mkEQPreset "Electronic" [4; 3; 0; -2; -1; 1; 0; 3; 4; 4]%Q;
    mkEQPreset "Rock" [4; 3; 1; 0; -1; 0; 1; 3; 4; 4]%Q;
    mkEQPreset "Pop" [-1; 1; 3; 4; 3; 1; 0; 1; 2; 2]%Q;
    mkEQPreset "Jazz" [2; 1; 0; 1; 2; 3; 3; 2; 2; 2]%Q;
    mkEQPreset "Classical" [3; 2; 1; 1; 0; 0; 0; 1; 2; 3]%Q;
    mkEQPreset "Hip Hop" [5; 4; 2; 1; 0; 0; 1; 0; 2; 2]%Q ].

(** The [HTMLAudioElement].  A [duration] of 0 also stands for the unknown
    duration (NaN), which the engine reads through [duration || 0]. *)
Record AudioElement : Type := mkAudioElement {
  src : string;
  currentTime : Q;
  el_duration : Q;
  paused : bool
}.

(** The engine's fields.  A filter node and the gain node are kept as the
    number last assigned to their [gain.value] (the default before any
    assignment; the platform holds it in single precision); the context,
    source and analyser nodes exist exactly when [isInitialized] and carry
    no state of their own here. *)
Record t : Type := mk {
  audioElement : option AudioElement;
  eqNodes : list Q;
  gainNode : option Q;
  currentTrack : option Track;
  isInitialized : bool
}.

(** The engine before [initialize()]. *)
Definition fresh : t :=
  {| audioElement := None; eqNodes := []; gainNode := None;
     currentTrack := None; isInitialized := false |}.

Definition with_audioElement (a : option AudioElement) (e : t) : t :=
  {| audioElement := a; eqNodes := eqNodes e; gainNode := gainNode e;
     currentTrack := currentTrack e; isInitialized := isInitialized e |}.

Definition with_eqNodes (n : list Q) (e : t) : t :=
  {| audioElement := audioElement e; eqNodes := n; gainNode := gainNode e;
     currentTrack := currentTrack e; isInitialized := isInitialized e |}.

Definition with_gainNode (g : option Q) (e : t) : t :=
  {| audioElement := audioElement e; eqNodes := eqNodes e; gainNode := g;
     currentTrack := currentTrack e; isInitialized := isInitialized e |}.

(** [initialize()]: builds source -> EQ chain -> analyser -> gain ->
    destination.  Every filter starts flat and the gain node at the
    platform's default gain of 1.  When the platform cannot create the
    context, the constructor throws before any field is assigned. *)
Definition initialize (p : Platform) (e : t) : completion * t :=
  if isInitialized e then (Normal, e)
  else if context_ok p then
    (Normal,
     {| audioElement :=
          Some {| src := ""; currentTime := 0; el_duration := 0;
                  paused := true |};
        eqNodes := (λ _, 0%Q) <$> EQ_FREQUENCIES;
        gainNode := Some 1%Q;
        currentTrack := currentTrack e;
        isInitialized := true |})
  else (Throw, e).

(** [ensureInitialized()]; resuming a suspended context changes none of the
    fields above. *)
Definition ensureInitialized (p : Platform) (e : t) : completion * t :=
  if isInitialized e then (Normal, e) else initialize p e.

(** [loadSource(url)]: assigning [src] and calling [load()] rewinds the
    element; its duration is unknown until the platform reports it. *)
Definition loadSource (url : string) (e : t) : completion * t :=
  match audioElement e with
  | None => (Throw, e)
  | Some a =>
      (Normal,
       with_audioElement
         (Some {| src := url; currentTime := 0; el_duration := 0;
                  paused := true |}) e)
  end.

(** [loadFile(file)]: the object URL of the file is ["blob:"] followed by
    its name. *)
Definition loadFile (p : Platform) (file : string) (e : t) : completion * t :=
  match ensureInitialized p e with
  | (Normal, e1) => loadSource ("blob:" +:+ file) e1
  | (Throw, e1) => (Throw, e1)
  end.

(** [loadStream(url)] *)
Definition loadStream (p : Platform) (url : string) (e : t) : completion * t :=
  match ensureInitialized p e with
  | (Normal, e1) => loadSource url e1
  | (Throw, e1) => (Throw, e1)
  end.

(** [play()] *)
Definition play (p : Platform) (e : t) : completion * t :=
  match ensureInitialized p e with
  | (Normal, e1) =>
      match audioElement e1 with
      | Some a =>
          if play_ok p then
            (Normal,
             with_audioElement
               (Some {| src := src a; currentTime := currentTime a;
                        el_duration := el_duration a; paused := false |}) e1)
          else (Throw, e1)
      | None => (Normal, e1)
      end
  | (Throw, e1) => (Throw, e1)
  end.

(** [pause()] *)
Definition pause (e : t) : t :=
  match audioElement e with
  | Some a =>
      with_audioElement
        (Some {| src := src a; currentTime := currentTime a;
                 el_duration := el_duration a; paused := true |}) e
  | None => e
  end.

(** [duration || 0] *)
Definition duration_or_0 (a : AudioElement) : Q :=
  if Qeq_bool (el_duration a) 0 then 0%Q else el_duration a.

(** [seek(position)], a fraction of the duration *)
Definition seek (position : Q) (e : t) : t :=
  match audioElement e with
  | Some a =>
      if Qeq_bool (el_duration a) 0 then e
      else
        with_audioElement
          (Some {| src := src a;
                   currentTime := (position * el_duration a)%Q;
                   el_duration := el_duration a; paused := paused a |}) e
  | None => e
  end.

(** [seekTo(time)], in seconds *)
Definition seekTo (time : Q) (e : t) : t :=
  match audioElement e with
  | Some a =>
      with_audioElement
        (Some {| src := src a;
                 currentTime := Math_max 0 (Math_min time (duration_or_0 a));
                 el_duration := el_duration a; paused := paused a |}) e
  | None => e
  end.

(** [setVolume(volume)]: the number assigned to the gain parameter. *)
Definition setVolume (volume : Q) (e : t) : t :=
  match gainNode e with
  | Some _ => with_gainNode (Some (Math_max 0 (Math_min 1 volume))) e
  | None => e
  end.

(** [setEQBand(index, gain)] *)
Definition setEQBand (index : Z) (gain : Q) (e : t) : t :=
  if (0 <=? index) && (index <? JsArray.length (eqNodes e)) then
    let clampedGain := Math_max (-12) (Math_min 12 gain) in
    with_eqNodes (<[Z.to_nat index := clampedGain]> (eqNodes e)) e
  else e.

(** One step of the [forEach] in [setEQBands].  A hole is skipped.  An
    [undefined] makes [clampedGain] NaN, which an in-range filter's
    [gain.value] refuses with a TypeError. *)
Definition setEQBand_slot (index : Z) (s : JsArray.slot) (e : t)
  : completion * t :=
  match s with
  | JsArray.Number gain => (Normal, setEQBand index gain e)
  | JsArray.Empty => (Normal, e)
  | JsArray.Undefined =>
      if (0 <=? index) && (index <? JsArray.length (eqNodes e))
      then (Throw, e) else (Normal, e)
  end.

Fixpoint setEQBands_from (index : Z) (gains : list JsArray.slot) (e : t)
  : completion * t :=
  match gains with
  | [] => (Normal, e)
  | s :: r =>
      match setEQBand_slot index s e with
      | (Normal, e1) => setEQBands_from (index + 1) r e1
      | (Throw, e1) => (Throw, e1)
      end
  end.

(** [setEQBands(gains)] *)
Definition setEQBands (gains : list JsArray.slot) (e : t) : completion * t :=
  setEQBands_from 0 gains e.

(** [applyPreset(preset)] *)
Definition applyPreset (preset : EQPreset) (e : t) : completion * t :=
  setEQBands (JsArray.Number <$> bands preset) e.

(** [setEQEnabled(enabled)]: when disabled, set all gains to 0. *)
Definition setEQEnabled (enabled : bool) (e : t) : t :=
  with_eqNodes ((λ g, if negb enabled then 0%Q else g) <$> eqNodes e) e.

(** [setCurrentTrack(track)]; the media-session metadata it refreshes is
    not part of the engine's state. *)
Definition setCurrentTrack (track : Track) (e : t) : t :=
  {| audioElement := audioElement e; eqNodes := eqNodes e;
     gainNode := gainNode e; currentTrack := Some track;
     isInitialized := isInitialized e |}.

(** [x || 0] *)
Definition or_0 (x : Q) : Q := if Qeq_bool x 0 then 0%Q else x.

(** [getPlaybackInfo()]; without an audio element [!this.audioElement?.paused]
    is [!undefined]. *)
Record PlaybackInfo : Type := mkPlaybackInfo {
  info_currentTime : Q;
  info_duration : Q;
  info_isPlaying : bool
}.

Definition getPlaybackInfo (e : t) : PlaybackInfo :=
  match audioElement e with
  | Some a =>
      {| info_currentTime := or_0 (currentTime a);
         info_duration := or_0 (el_duration a);
         info_isPlaying := negb (paused a) |}
  | None =>
      {| info_currentTime := 0; info_duration := 0; info_isPlaying := true |}
  end.

(** [destroy()]: the element is paused and dropped with the rest of the
    graph; [currentTrack] is not among the fields it resets. *)
Definition destroy (e : t) : t :=
  {| audioElement := None; eqNodes := []; gainNode := None;
     currentTrack := currentTrack e; isInitialized := false |}.

End AudioEngine.

(** ** The engine's event listeners

    [eventListeners] is a [Map] from event type to a [Set] of callbacks.  No
    other method of the engine reads it, so it is kept apart from the
    fields above.  A callback is known by its identity; a [Set] keeps its
    members in insertion order, once each. *)

Module EventListeners.

Inductive AudioEngineEventType : Type :=
  | timeupdate | ended | loading | loaded | error.

#[global] Instance AudioEngineEventType_eq_dec : EqDecision AudioEngineEventType.
Proof. solve_decision. Defined.

Definition event_code (ev : AudioEngineEventType) : nat :=
  match ev with
  | timeupdate => 0 | ended => 1 | loading => 2 | loaded => 3 | error => 4
  end%nat.

Definition event_of_code (n : nat) : option AudioEngineEventType :=
  match n with
  | 0 => Some timeupdate | 1 => Some ended | 2 => Some loading
  | 3 => Some loaded | 4 => Some error | _ => None
  end%nat.

#[global] Instance AudioEngineEventType_countable :
  Countable AudioEngineEventType.
Proof.
  apply (inj_countable event_code event_of_code). by intros [].
Defined.

Definition callback : Type := nat.

(** [set.add(cb)] and [set.delete(cb)] *)
Definition set_add (cb : callback) (s : list callback) : list callback :=
  if decide (cb ∈ s) then s else s ++ [cb].

Definition set_delete (cb : callback) (s : list callback) : list callback :=
  filter (λ x, x ≠ cb) s.

Abbreviation t := (gmap AudioEngineEventType (list callback)).

(** [on(event, callback)] *)
Definition on (event : AudioEngineEventType) (cb : callback) (m : t) : t :=
  let m1 :=
    match m !! event with
    | None => <[event := []]> m
    | Some _ => m
    end in
  alter (set_add cb) event m1.

(** [off(event, callback)] *)
Definition off (event : AudioEngineEventType) (cb : callback) (m : t) : t :=
  alter (set_delete cb) event m.

(** [emit(event, data)]: the callbacks it calls, in order, each with
    [data]. *)
Definition emit (event : AudioEngineEventType) (m : t) : list callback :=
  match m !! event with
  | Some s => s
  | None => []
  end.

(** [eventListeners.clear()], as [destroy()] does *)
Definition clear (m : t) : t := ∅.

End EventListeners.

(** ** The lyrics service ([lib/services/LyricsService.ts]) *)

Module LyricsService.

Record LyricLine : Type := mkLyricLine {
  time : Q;  (* in seconds *)
  text : string
}.

Record Lyrics : Type := mkLyrics {
  trackId : string;
  synced : bool;
  lines : list LyricLine;
  lyrics_source : option string
}.

(** The loop [for (let i = n - 1; i >= 0; i--)] of [getCurrentLine]; every
    [i] it visits is a position of [lines]. *)
Fixpoint last_started (ls : list LyricLine) (currentTime : Q) (n : nat) : Z :=
  match n with
  | O => -1
  | S i =>
      match ls !! i with
      | Some l =>
          if Qle_bool (time l) currentTime then Z.of_nat i
          else last_started ls currentTime i
      | None => last_started ls currentTime i
      end
  end.

(** [getCurrentLine(lyrics, currentTime)] *)
Definition getCurrentLine (lyrics : Lyrics) (currentTime : Q) : Z :=
  if negb (synced lyrics) || (JsArray.length (lines lyrics) =? 0) then -1
  else
    (* Find the last line that has started *)
    last_started (lines lyrics) currentTime (length (lines lyrics)).

End LyricsService.

(** ** The player store ([src/stores/usePlayerStore.ts]) *)

(** A queue position holds a track or, after a [splice] that inserted the
    [undefined] it had failed to remove, nothing. *)
Definition entry : Type := option Track.

Module Store.

Record PlayerState : Type := mkPlayerState {
  (* Playback state *)
  currentTrack : option Track;
  isPlaying : bool;
  progress : Q;
  duration : Q;
  volume : Q;
  muted : bool;
  (* Queue *)
  queue : list entry;
  queueIndex : Z;
  shuffle : bool;
  repeat : RepeatMode;
  (* EQ *)
  eqEnabled : bool;
  eqBands : list JsArray.slot;
  eqPresetName : string;
  (* UI state *)
  currentView : ViewType;
  libraryTab : LibraryTab;
  showNowPlaying : bool;
  showLyrics : bool
}.

(** Initial state *)
Definition initial : PlayerState :=
  {| currentTrack := None; isPlaying := false; progress := 0; duration := 0;
     volume := 8 # 10; muted := false;
     queue := []; queueIndex := -1; shuffle := false; repeat := off;
     eqEnabled := true;
     eqBands := JsArray.Number <$> [0; 0; 0; 0; 0; 0; 0; 0; 0; 0]%Q;
     eqPresetName := "Flat";
     currentView := home; libraryTab := tab_local;
     showNowPlaying := false; showLyrics := false |}.

(** [set({...})] merges the given fields into the state; one function per
    group of fields that the actions write. *)
Definition set_currentTrack (x : option Track) (s : PlayerState) :=
  {| currentTrack := x; isPlaying := isPlaying s; progress := progress s;
     duration := duration s; volume := volume s; muted := muted s;
     queue := queue s; queueIndex := queueIndex s; shuffle := shuffle s;
     repeat := repeat s; eqEnabled := eqEnabled s; eqBands := eqBands s;
     eqPresetName := eqPresetName s; currentView := currentView s;
     libraryTab := libraryTab s; showNowPlaying := showNowPlaying s;
     showLyrics := showLyrics s |}.

Definition set_isPlaying (x : bool) (s : PlayerState) :=
  {| currentTrack := currentTrack s; isPlaying := x; progress := progress s;
     duration := duration s; volume := volume s; muted := muted s;
     queue := queue s; queueIndex := queueIndex s; shuffle := shuffle s;
     repeat := repeat s; eqEnabled := eqEnabled s; eqBands := eqBands s;
     eqPresetName := eqPresetName s; currentView := currentView s;
     libraryTab := libraryTab s; showNowPlaying := showNowPlaying s;
     showLyrics := showLyrics s |}.

Definition set_progress_duration (x y : Q) (s : PlayerState) :=
  {| currentTrack := currentTrack s; isPlaying := isPlaying s; progress := x;
     duration := y; volume := volume s; muted := muted s;
     queue := queue s; queueIndex := queueIndex s; shuffle := shuffle s;
     repeat := repeat s; eqEnabled := eqEnabled s; eqBands := eqBands s;
     eqPresetName := eqPresetName s; currentView := currentView s;
     libraryTab := libraryTab s; showNowPlaying := showNowPlaying s;
     showLyrics := showLyrics s |}.

Definition set_volume_muted (x : Q) (y : bool) (s : PlayerState) :=
  {| currentTrack := currentTrack s; isPlaying := isPlaying s;
     progress := progress s; duration := duration s; volume := x; muted := y;
     queue := queue s; queueIndex := queueIndex s; shuffle := shuffle s;
     repeat := repeat s; eqEnabled := eqEnabled s; eqBands := eqBands s;
     eqPresetName := eqPresetName s; currentView := currentView s;
     libraryTab := libraryTab s; showNowPlaying := showNowPlaying s;
     showLyrics := showLyrics s |}.

Definition set_muted (y : bool) (s : PlayerState) :=
  set_volume_muted (volume s) y s.

Definition set_queue_queueIndex (x : list entry) (y : Z) (s : PlayerState) :=
  {| currentTrack := currentTrack s; isPlaying := isPlaying s;
     progress := progress s; duration := duration s; volume := volume s;
     muted := muted s; queue := x; queueIndex := y; shuffle := shuffle s;
     repeat := repeat s; eqEnabled := eqEnabled s; eqBands := eqBands s;
     eqPresetName := eqPresetName s; currentView := currentView s;
     libraryTab := libraryTab s; showNowPlaying := showNowPlaying s;
     showLyrics := showLyrics s |}.

Definition set_queue (x : list entry) (s : PlayerState) :=
  set_queue_queueIndex x (queueIndex s) s.

Definition set_queueIndex (y : Z) (s : PlayerState) :=
  set_queue_queueIndex (queue s) y s.

Definition set_shuffle (x : bool) (s : PlayerState) :=
  {| currentTrack := currentTrack s; isPlaying := isPlaying s;
     progress := progress s; duration := duration s; volume := volume s;
     muted := muted s; queue := queue s; queueIndex := queueIndex s;
     shuffle := x; repeat := repeat s; eqEnabled := eqEnabled s;
     eqBands := eqBands s; eqPresetName := eqPresetName s;
     currentView := currentView s; libraryTab := libraryTab s;
     showNowPlaying := showNowPlaying s; showLyrics := showLyrics s |}.

Definition set_repeat (x : RepeatMode) (s : PlayerState) :=
  {| currentTrack := currentTrack s; isPlaying := isPlaying s;
     progress := progress s; duration := duration s; volume := volume s;
     muted := muted s; queue := queue s; queueIndex := queueIndex s;
     shuffle := shuffle s; repeat := x; eqEnabled := eqEnabled s;
     eqBands := eqBands s; eqPresetName := eqPresetName s;
     currentView := currentView s; libraryTab := libraryTab s;
     showNowPlaying := showNowPlaying s; showLyrics := showLyrics s |}.

Definition set_eqEnabled (x : bool) (s : PlayerState) :=
  {| currentTrack := currentTrack s; isPlaying := isPlaying s;
     progress := progress s; duration := duration s; volume := volume s;
     muted := muted s; queue := queue s; queueIndex := queueIndex s;
     shuffle := shuffle s; repeat := repeat s; eqEnabled := x;
     eqBands := eqBands s; eqPresetName := eqPresetName s;
     currentView := currentView s; libraryTab := libraryTab s;
     showNowPlaying := showNowPlaying s; showLyrics := showLyrics s |}.

Definition set_eqBands_eqPresetName
    (x : list JsArray.slot) (y : string) (s : PlayerState) :=
  {| currentTrack := currentTrack s; isPlaying := isPlaying s;
     progress := progress s; duration := duration s; volume := volume s;
     muted := muted s; queue := queue s; queueIndex := queueIndex s;
     shuffle := shuffle s; repeat := repeat s; eqEnabled := eqEnabled s;
     eqBands := x; eqPresetName := y;
     currentView := currentView s; libraryTab := libraryTab s;
     showNowPlaying := showNowPlaying s; showLyrics := showLyrics s |}.

Definition set_eqBands (x : list JsArray.slot) (s : PlayerState) :=
  set_eqBands_eqPresetName x (eqPresetName s) s.

(** The two singletons together. *)
Definition world : Type := PlayerState * AudioEngine.t.

(** *** Playback actions *)

(** A non-empty string is truthy. *)
Definition truthy_url (u : option string) : option string :=
  match u with
  | Some url => if String.eqb url "" then None else Some url
  | None => None
  end.

Definition setTrack (p : Platform) (track : Track) (w : world)
  : completion * world :=
  let s1 := set_currentTrack (Some track) w.1 in
  let e1 := AudioEngine.setCurrentTrack track w.2 in
  match source track, fileHandle track with
  | local, Some file =>
      if getFile_ok p then
        let '(c, e2) := AudioEngine.loadFile p file e1 in (c, (s1, e2))
      else (Throw, (s1, e1))
  | _, _ =>
      match truthy_url (streamUrl track) with
      | Some url =>
          let '(c, e2) := AudioEngine.loadStream p url e1 in (c, (s1, e2))
      | None => (Normal, (s1, e1))
      end
  end.

Definition playTrack (p : Platform) (track : Track)
    (new_queue : option (list Track)) (w : world) : completion * world :=
  let s1 :=
    match new_queue with
    | Some q =>
        let index := JsArray.findIndex (λ t, String.eqb (id t) (id track)) q in
        set_queue_queueIndex (Some <$> q) (if 0 <=? index then index else 0)
          w.1
    | None => w.1
    end in
  match setTrack p track (s1, w.2) with
  | (Normal, (s2, e2)) =>
      match AudioEngine.play p e2 with
      | (Normal, e3) => (Normal, (set_isPlaying true s2, e3))
      | (Throw, e3) => (Throw, (s2, e3))
      end
  | (Throw, w2) => (Throw, w2)
  end.

Definition togglePlayPause (p : Platform) (w : world) : completion * world :=
  if isPlaying w.1 then
    (Normal, (set_isPlaying false w.1, AudioEngine.pause w.2))
  else
    match AudioEngine.play p w.2 with
    | (Normal, e1) => (Normal, (set_isPlaying true w.1, e1))
    | (Throw, e1) => (Throw, (w.1, e1))
    end.

Definition play (p : Platform) (w : world) : completion * world :=
  match AudioEngine.play p w.2 with
  | (Normal, e1) => (Normal, (set_isPlaying true w.1, e1))
  | (Throw, e1) => (Throw, (w.1, e1))
  end.

Definition pause (w : world) : world :=
  (set_isPlaying false w.1, AudioEngine.pause w.2).

(** [queue[i]] followed by the truthiness test [if (track)]. *)
Definition track_at (q : list entry) (i : Z) : option Track :=
  mjoin (JsArray.get q i).

(** [next()]; [random] is the value [Math.random()] returns.  The product
    under [Math.floor] is exact here and a double in the code. *)
Definition next (p : Platform) (random : Q) (w : world) : completion * world :=
  let state := w.1 in
  if JsArray.length (queue state) =? 0 then (Normal, w)
  else
    let nextIndex : option Z :=
      if shuffle state then
        Some (Qfloor (random * inject_Z (JsArray.length (queue state))))
      else
        let nextIndex := queueIndex state + 1 in
        if JsArray.length (queue state) <=? nextIndex then
          match repeat state with
          | all => Some 0
          | _ => None (* End of queue *)
          end
        else Some nextIndex in
    match nextIndex with
    | None => (Normal, w)
    | Some nextIndex =>
        match track_at (queue state) nextIndex with
        | Some nextTrack =>
            playTrack p nextTrack None (set_queueIndex nextIndex w.1, w.2)
        | None => (Normal, w)
        end
    end.

(** [previous()] *)
Definition previous (p : Platform) (w : world) : completion * world :=
  let state := w.1 in
  (* If more than 3 seconds in, restart current track *)
  if Qgt_bool (progress state) 3 then (Normal, (w.1, AudioEngine.seekTo 0 w.2))
  else if JsArray.length (queue state) =? 0 then (Normal, w)
  else
    let prevIndex :=
      if 0 <? queueIndex state then queueIndex state - 1
      else JsArray.length (queue state) - 1 in
    match track_at (queue state) prevIndex with
    | Some prevTrack =>
        playTrack p prevTrack None (set_queueIndex prevIndex w.1, w.2)
    | None => (Normal, w)
    end.

Definition seek (position : Q) (w : world) : world :=
  (w.1, AudioEngine.seek position w.2).

Definition setVolume (volume : Q) (w : world) : world :=
  (set_volume_muted volume false w.1, AudioEngine.setVolume volume w.2).

Definition toggleMute (w : world) : world :=
  let state := w.1 in
  if muted state then
    (set_muted false w.1, AudioEngine.setVolume (volume state) w.2)
  else
    (set_muted true w.1, AudioEngine.setVolume 0 w.2).

Definition toggleShuffle (w : world) : world :=
  (set_shuffle (negb (shuffle w.1)) w.1, w.2).

(** [cycleRepeat()]; [%] is the remainder of the division. *)
Definition cycleRepeat (w : world) : world :=
  let modes := [off; all; one] in
  let currentIndex := JsArray.indexOf (repeat w.1) modes in
  let nextIndex := Z.rem (currentIndex + 1) (JsArray.length modes) in
  match JsArray.get modes nextIndex with
  | Some mode => (set_repeat mode w.1, w.2)
  | None => w (* [nextIndex] is always a position of [modes] *)
  end.

(** *** EQ actions *)

Definition setEQBand (index : Z) (gain : Q) (w : world) : world :=
  let e1 := AudioEngine.setEQBand index gain w.2 in
  let newBands := JsArray.assign (JsArray.spread (eqBands w.1)) index gain in
  (set_eqBands_eqPresetName newBands "Custom" w.1, e1).

Definition setEQBands (gains : list JsArray.slot) (w : world)
  : completion * world :=
  match AudioEngine.setEQBands gains w.2 with
  | (Normal, e1) => (Normal, (set_eqBands gains w.1, e1))
  | (Throw, e1) => (Throw, (w.1, e1))
  end.

(** [EQ_PRESETS.find((p) => p.name === presetName)] *)
Definition find_preset (presetName : string) : option EQPreset :=
  List.find (λ p, String.eqb (name p) presetName) AudioEngine.EQ_PRESETS.

Definition applyEQPreset (presetName : string) (w : world)
  : completion * world :=
  match find_preset presetName with
  | Some preset =>
      match AudioEngine.applyPreset preset w.2 with
      | (Normal, e1) =>
          (Normal,
           (set_eqBands_eqPresetName (JsArray.Number <$> bands preset)
              presetName w.1, e1))
      | (Throw, e1) => (Throw, (w.1, e1))
      end
  | None => (Normal, w)
  end.

Definition toggleEQ (w : world) : completion * world :=
  let newEnabled := negb (eqEnabled w.1) in
  let e1 := AudioEngine.setEQEnabled newEnabled w.2 in
  let s1 := set_eqEnabled newEnabled w.1 in
  (* Restore EQ bands if re-enabling *)
  if newEnabled then
    let '(c, e2) := AudioEngine.setEQBands (eqBands s1) e1 in (c, (s1, e2))
  else (Normal, (s1, e1)).

(** *** Queue actions *)

Definition addToQueue (track : Track) (w : world) : world :=
  (set_queue (queue w.1 ++ [Some track]) w.1, w.2).

Definition removeFromQueue (index : Z) (w : world) : world :=
  let state := w.1 in
  let newQueue := JsArray.filter (λ _ i, negb (i =? index)) (queue state) in
  let newIndex := queueIndex state in
  let newIndex :=
    if index <? queueIndex state then newIndex - 1
    else if (index =? queueIndex state)
            && (JsArray.length newQueue <=? newIndex)
    then JsArray.length newQueue - 1
    else newIndex in
  (set_queue_queueIndex newQueue newIndex w.1, w.2).

Definition clearQueue (w : world) : world :=
  (set_queue_queueIndex [] (-1) w.1, w.2).

Definition reorderQueue (fromIndex toIndex : Z) (w : world) : world :=
  let state := w.1 in
  let newQueue := queue state in
  let '(newQueue, removed_items) := JsArray.splice fromIndex 1 [] newQueue in
  (* [const [removed] = ...]: the first removed element, or undefined *)
  let removed : entry := mjoin (head removed_items) in
  let '(newQueue, _) := JsArray.splice toIndex 0 [removed] newQueue in
  let newIndex := queueIndex state in
  let newIndex :=
    if queueIndex state =? fromIndex then toIndex
    else if (fromIndex <? queueIndex state) && (queueIndex state <=? toIndex)
    then newIndex - 1
    else if (queueIndex state <? fromIndex) && (toIndex <=? queueIndex state)
    then newIndex + 1
    else newIndex in
  (set_queue_queueIndex newQueue newIndex w.1, w.2).

(** *** Internal actions and the engine's events *)

Definition updateProgress (progress duration : Q) (w : world) : world :=
  (set_progress_duration progress duration w.1, w.2).

Definition setIsPlaying (isPlaying : bool) (w : world) : world :=
  (set_isPlaying isPlaying w.1, w.2).

(** The ['timeupdate'] listener *)
Definition on_timeupdate (w : world) : world :=
  match AudioEngine.audioElement w.2 with
  | Some a =>
      updateProgress (AudioEngine.currentTime a) (AudioEngine.duration_or_0 a) w
  | None => w
  end.

(** The ['ended'] listener *)
Definition on_ended (p : Platform) (random : Q) (w : world)
  : completion * world :=
  match repeat w.1 with
  | one =>
      let '(c, e1) := AudioEngine.play p (AudioEngine.seekTo 0 w.2) in
      (c, (w.1, e1))
  | _ => next p random w
  end.

(** *** The persisted part of the state ([partialize]) *)

Record Persisted : Type := mkPersisted {
  persisted_volume : Q;
  persisted_shuffle : bool;
  persisted_repeat : RepeatMode;
  persisted_eqEnabled : bool;
  persisted_eqBands : list JsArray.slot;
  persisted_eqPresetName : string
}.

Definition partialize (state : PlayerState) : Persisted :=
  {| persisted_volume := volume state;
     persisted_shuffle := shuffle state;
     persisted_repeat := repeat state;
     persisted_eqEnabled := eqEnabled state;
     persisted_eqBands := eqBands state;
     persisted_eqPresetName := eqPresetName state |}.

End Store.

(** ** Vocabulary of the specification *)

Import Store.

(** The queue-index invariant: no selection, or a position of the queue. *)
Definition queue_inv (s : PlayerState) : Prop :=
  queueIndex s = -1 ∨ 0 ≤ queueIndex s < JsArray.length (queue s).

(** Every position of the queue holds a track. *)
Definition queue_of_tracks (s : PlayerState) : Prop :=
  Forall is_Some (queue s).

(** The entry the index denotes. *)
Definition current_entry (s : PlayerState) : option entry :=
  JsArray.get (queue s) (queueIndex s).

(** The four queue mutations. *)
Inductive queue_mutation : Type :=
  | AddToQueue (track : Track)
  | RemoveFromQueue (index : Z)
  | ReorderQueue (fromIndex toIndex : Z)
  | ClearQueue.

Definition mutate (m : queue_mutation) (w : world) : world :=
  match m with
  | AddToQueue track => addToQueue track w
  | RemoveFromQueue index => removeFromQueue index w
  | ReorderQueue fromIndex toIndex => reorderQueue fromIndex toIndex w
  | ClearQueue => clearQueue w
  end.

(** The mutation removes the entry that is current in [s]. *)
Definition removes_current (m : queue_mutation) (s : PlayerState) : Prop :=
  match m with
  | RemoveFromQueue index => index = queueIndex s
  | _ => False
  end.

(** After the mutation the invariant holds again, and an index other than
    -1 denotes the entry that was current before, unless that one was
    removed. *)
Definition index_kept (m : queue_mutation) (w : world) : Prop :=
  queue_inv (mutate m w).1 ∧
  (queueIndex (mutate m w).1 ≠ -1 →
   removes_current m w.1 ∨
   (queueIndex w.1 ≠ -1 ∧ current_entry (mutate m w).1 = current_entry w.1)).

(** The index arguments of the mutation are positions of the queue; a
    removal index may also lie past the end. *)
Definition positions_ok (m : queue_mutation) (s : PlayerState) : Prop :=
  match m with
  | RemoveFromQueue index => 0 ≤ index
  | ReorderQueue fromIndex toIndex =>
      0 ≤ fromIndex < JsArray.length (queue s) ∧
      0 ≤ toIndex < JsArray.length (queue s)
  | _ => True
  end.

(** Three tracks and a store whose queue holds them. *)
Definition track_a : Track :=
  mkTrack "a" "Alpha" "Ann" "One" 180 stream None (Some "https://cdn/a").
Definition track_b : Track :=
  mkTrack "b" "Beta" "Bob" "One" 200 stream None (Some "https://cdn/b").
Definition track_c : Track :=
  mkTrack "c" "Gamma" "Cyd" "Two" 240 local (Some "c.mp3") None.

Definition three_tracks (index : Z) : PlayerState :=
  set_queue_queueIndex [Some track_a; Some track_b; Some track_c] index initial.

(** A platform on which every request succeeds. *)
Definition willing : Platform :=
  {| context_ok := true; getFile_ok := true; play_ok := true |}.

(** The engine once [initialize()] has succeeded on a fresh engine. *)
Definition ready_engine : AudioEngine.t :=
  (AudioEngine.initialize willing AudioEngine.fresh).2.

(** The platform grants every request of an action. *)
Definition cooperative (p : Platform) : Prop :=
  context_ok p = true ∧ getFile_ok p = true ∧ play_ok p = true.

(** An initialised engine has its audio element. *)
Definition engine_consistent (e : AudioEngine.t) : Prop :=
  AudioEngine.isInitialized e = true → is_Some (AudioEngine.audioElement e).

(** The call completed and [track] is now playing: it is the current track
    of the store and of the engine, the store reports playback, and the
    audio element is not paused. *)
Definition now_playing (track : Track) (r : completion * world) : Prop :=
  r.1 = Normal ∧
  currentTrack r.2.1 = Some track ∧
  isPlaying r.2.1 = true ∧
  AudioEngine.currentTrack r.2.2 = Some track ∧
  ∃ a, AudioEngine.audioElement r.2.2 = Some a ∧ AudioEngine.paused a = false.

(** The call set the index to [i] and handed the track found there to
    [playTrack]; on a cooperative platform that track is now playing. *)
Definition plays_entry (p : Platform) (i : Z) (w : world)
    (r : completion * world) : Prop :=
  ∃ track,
    JsArray.get (queue w.1) i = Some (Some track) ∧
    r = playTrack p track None (set_queueIndex i w.1, w.2) ∧
    queueIndex r.2.1 = i ∧
    currentTrack r.2.1 = Some track ∧
    (cooperative p → engine_consistent w.2 → now_playing track r).





(** The store with [progress] seconds elapsed. *)
Definition at_progress (x : Q) (s : PlayerState) : PlayerState :=
  set_progress_duration x (duration s) s.

(** A gain within the equaliser's range of -12..+12 dB. *)
Definition gain_in_range (g : Q) : Prop := (-12 <= g)%Q ∧ (g <= 12)%Q.

(** A volume within 0..1. *)
Definition volume_in_range (v : Q) : Prop := (0 <= v)%Q ∧ (v <= 1)%Q.

(** The store's [isPlaying] agrees with the audio element, when there is
    one. *)
Definition playing_in_sync (w : world) : Prop :=
  ∀ a, AudioEngine.audioElement w.2 = Some a →
       isPlaying w.1 = negb (AudioEngine.paused a).

(** The gain the engine gives a filter for a requested gain. *)
Definition clamped_gain (g : Q) : Q := Math_max (-12) (Math_min 12 g).

(** Every set of listeners holds each callback once. *)
Definition listeners_wf (m : EventListeners.t) : Prop :=
  map_Forall (λ _ s, NoDup s) m.

(** A track that [setTrack] has nothing to load for. *)
Definition sourceless (track : Track) : Prop :=
  truthy_url (streamUrl track) = None ∧
  (source track = local → fileHandle track = None).

(** The graph carries the stored gains, each clamped by the engine. *)
Definition eq_mirrored (w : world) (gains : list Q) : Prop :=
  eqBands w.1 = JsArray.Number <$> gains ∧
  AudioEngine.eqNodes w.2 = clamped_gain <$> gains.

(** * Properties *)

(** ** Arrays *)

Section ArrayFacts.
Context {A : Type}.
Implicit Types (a : list A) (i j : Z) (k n : nat).

Lemma get_nonneg a i : 0 ≤ i → JsArray.get a i = a !! Z.to_nat i.
Proof.
  intros Hi. unfold JsArray.get.
  destruct (Z.ltb_spec i 0); [lia | reflexivity].
Qed.

Lemma get_neg a i : i < 0 → JsArray.get a i = None.
Proof.
  intros Hi. unfold JsArray.get.
  destruct (Z.ltb_spec i 0); [reflexivity | lia].
Qed.

(** Filtering out one index deletes that position, if there is one. *)
Lemma filter_from_skip a i j :
  i < j → JsArray.filter_from (λ _ x, negb (x =? i)) j a = a.
Proof.
  revert j. induction a as [|x r IH]; intros j Hj; simpl; [reflexivity|].
  destruct (Z.eqb_spec j i); [lia|]. simpl. f_equal. apply IH. lia.
Qed.

Lemma filter_from_delete a i j :
  j ≤ i →
  JsArray.filter_from (λ _ x, negb (x =? i)) j a = delete (Z.to_nat (i - j)) a.
Proof.
  revert j. induction a as [|x r IH]; intros j Hj; simpl; [reflexivity|].
  destruct (Z.eqb_spec j i) as [->|Hne]; simpl.
  - rewrite Z.sub_diag. simpl. apply filter_from_skip. lia.
  - replace (Z.to_nat (i - j)) with (S (Z.to_nat (i - (j + 1)))) by lia.
    simpl. f_equal. apply IH. lia.
Qed.

Lemma filter_index_delete a i :
  0 ≤ i → JsArray.filter (λ _ x, negb (x =? i)) a = delete (Z.to_nat i) a.
Proof.
  intros Hi. unfold JsArray.filter. rewrite filter_from_delete by lia.
  by rewrite Z.sub_0_r.
Qed.

Lemma filter_index_neg a i :
  i < 0 → JsArray.filter (λ _ x, negb (x =? i)) a = a.
Proof. intros Hi. by apply filter_from_skip. Qed.

(** Removing one element at a position of the array. *)
Lemma splice_remove a i x :
  0 ≤ i → a !! Z.to_nat i = Some x →
  JsArray.splice i 1 [] a = (delete (Z.to_nat i) a, [x]).
Proof.
  intros Hi Hx. pose proof (lookup_lt_Some _ _ _ Hx) as Hlt.
  unfold JsArray.splice, JsArray.splice_count, JsArray.splice_start,
    JsArray.length.
  destruct (Z.ltb_spec i 0); [lia|].
  replace (Z.to_nat (Z.min i (Z.of_nat (length a)))) with (Z.to_nat i) by lia.
  replace (Z.to_nat (Z.min (Z.max 1 0)
             (Z.of_nat (length a) - Z.min i (Z.of_nat (length a)))))
    with 1%nat by lia.
  f_equal.
  - simpl. rewrite delete_take_drop. do 2 f_equal. lia.
  - rewrite (drop_S _ _ _ Hx). simpl. by rewrite take_0.
Qed.

(** Inserting one element; the position is clamped to the length. *)
Lemma splice_insert a i x :
  0 ≤ i →
  JsArray.splice i 0 [x] a
  = (take (Z.to_nat i) a ++ x :: drop (Z.to_nat i) a, []).
Proof.
  intros Hi.
  unfold JsArray.splice, JsArray.splice_count, JsArray.splice_start,
    JsArray.length.
  destruct (Z.ltb_spec i 0); [lia|].
  replace (Z.to_nat (Z.min (Z.max 0 0)
             (Z.of_nat (length a) - Z.min i (Z.of_nat (length a)))))
    with 0%nat by lia.
  rewrite Nat.add_0_r, take_0. simpl. f_equal.
  destruct (Z.le_gt_cases i (Z.of_nat (length a))).
  - by replace (Z.min i (Z.of_nat (length a))) with i by lia.
  - replace (Z.to_nat (Z.min i (Z.of_nat (length a)))) with (length a) by lia.
    rewrite !take_ge, !drop_ge by lia. reflexivity.
Qed.

Lemma lookup_insert_at a k x n :
  (k ≤ length a)%nat →
  (take k a ++ x :: drop k a) !! n =
  if decide (n < k)%nat then a !! n
  else if decide (n = k) then Some x
  else a !! (n - 1)%nat.
Proof.
  intros Hk. destruct (decide (n < k)%nat) as [Hlt|Hge].
  - rewrite lookup_app_l by (rewrite length_take; lia).
    by rewrite lookup_take_lt.
  - rewrite lookup_app_r by (rewrite length_take; lia).
    rewrite length_take, Nat.min_l by lia.
    destruct (decide (n = k)) as [->|Hne].
    + by rewrite Nat.sub_diag.
    + replace (n - k)%nat with (S (n - k - 1)) by lia. simpl.
      rewrite lookup_drop. f_equal. lia.
Qed.

Lemma length_insert_at a k x :
  length (take k a ++ x :: drop k a) = S (length a).
Proof.
  rewrite length_app. simpl. rewrite length_take, length_drop. lia.
Qed.
End ArrayFacts.

(** ** The queue index under mutation *)

Section QueueIndex.
Implicit Types (w : world) (s : PlayerState) (q : list entry).

Lemma length_delete_pos q (k : nat) :
  (k < length q)%nat → length (delete k q) = (length q - 1)%nat.
Proof. intros Hk. apply length_delete. by apply lookup_lt_is_Some. Qed.

Lemma delete_past_end q (k : nat) : (length q ≤ k)%nat → delete k q = q.
Proof.
  revert k. induction q as [|x r IH]; intros k Hk; [by destruct k|].
  destruct k as [|k]; simpl in *; [lia|]. f_equal. apply IH. lia.
Qed.

Lemma removeFromQueue_queue w index :
  0 ≤ index →
  queue (removeFromQueue index w).1 = delete (Z.to_nat index) (queue w.1).
Proof. intros Hi. simpl. by apply filter_index_delete. Qed.

Lemma reorderQueue_queue w fromIndex toIndex x :
  0 ≤ fromIndex → 0 ≤ toIndex →
  queue w.1 !! Z.to_nat fromIndex = Some x →
  queue (reorderQueue fromIndex toIndex w).1
  = take (Z.to_nat toIndex) (delete (Z.to_nat fromIndex) (queue w.1))
    ++ x :: drop (Z.to_nat toIndex) (delete (Z.to_nat fromIndex) (queue w.1)).
Proof.
  intros Hf Ht Hx. unfold reorderQueue.
  rewrite (splice_remove _ _ _ Hf Hx). cbv beta iota zeta.
  by rewrite (splice_insert _ _ _ Ht).
Qed.

Lemma reorderQueue_queueIndex w fromIndex toIndex :
  queueIndex (reorderQueue fromIndex toIndex w).1 =
  if queueIndex w.1 =? fromIndex then toIndex
  else if (fromIndex <? queueIndex w.1) && (queueIndex w.1 <=? toIndex)
  then queueIndex w.1 - 1
  else if (queueIndex w.1 <? fromIndex) && (toIndex <=? queueIndex w.1)
  then queueIndex w.1 + 1
  else queueIndex w.1.
Proof.
  unfold reorderQueue.
  destruct (JsArray.splice fromIndex 1 [] (queue w.1)) as [q1 r1].
  destruct (JsArray.splice toIndex 0 [mjoin (head r1)] q1) as [q2 r2].
  reflexivity.
Qed.

Lemma reorderQueue_other_fields w fromIndex toIndex :
  reorderQueue fromIndex toIndex w
  = (set_queue_queueIndex (queue (reorderQueue fromIndex toIndex w).1)
       (queueIndex (reorderQueue fromIndex toIndex w).1) w.1, w.2).
Proof.
  unfold reorderQueue.
  destruct (JsArray.splice fromIndex 1 [] (queue w.1)) as [q1 r1].
  by destruct (JsArray.splice toIndex 0 [mjoin (head r1)] q1) as [q2 r2].
Qed.

Lemma reorderQueue_past_end w fromIndex toIndex x :
  0 ≤ fromIndex → queue w.1 !! Z.to_nat fromIndex = Some x →
  JsArray.length (queue w.1) - 1 ≤ toIndex →
  queue (reorderQueue fromIndex toIndex w).1
  = delete (Z.to_nat fromIndex) (queue w.1) ++ [x].
Proof.
  intros Hf Hx Ht. pose proof (lookup_lt_Some _ _ _ Hx) as Hlt.
  unfold JsArray.length in Ht.
  rewrite (reorderQueue_queue w fromIndex toIndex x) by (done || lia).
  rewrite take_ge, drop_ge; [done | |]; rewrite length_delete_pos; lia.
Qed.

Lemma reorderQueue_negative w fromIndex toIndex x :
  0 ≤ fromIndex → queue w.1 !! Z.to_nat fromIndex = Some x →
  toIndex < 0 →
  queue (reorderQueue fromIndex toIndex w).1
  = take (Z.to_nat (Z.max (JsArray.length (queue w.1) - 1 + toIndex) 0))
         (delete (Z.to_nat fromIndex) (queue w.1))
    ++ x :: drop (Z.to_nat (Z.max (JsArray.length (queue w.1) - 1 + toIndex) 0))
                 (delete (Z.to_nat fromIndex) (queue w.1)).
Proof.
  intros Hf Hx Ht. pose proof (lookup_lt_Some _ _ _ Hx) as Hlt.
  unfold reorderQueue.
  rewrite (splice_remove _ _ _ Hf Hx). cbv beta iota zeta.
  unfold JsArray.splice, JsArray.splice_count, JsArray.splice_start,
    JsArray.length.
  destruct (Z.ltb_spec toIndex 0); [|lia].
  rewrite length_delete_pos by done.
  replace (Z.of_nat (length (queue w.1) - 1))
    with (Z.of_nat (length (queue w.1)) - 1) by lia.
  replace (Z.to_nat (Z.min (Z.max 0 0) _)) with 0%nat by lia.
  by rewrite Nat.add_0_r.
Qed.

Lemma reorderQueue_clamped w fromIndex toIndex :
  0 ≤ fromIndex < JsArray.length (queue w.1) →
  queue_inv w.1 → queueIndex w.1 ≠ fromIndex →
  JsArray.length (queue w.1) ≤ toIndex →
  reorderQueue fromIndex toIndex w
  = reorderQueue fromIndex (JsArray.length (queue w.1) - 1) w.
Proof.
  intros Hf Hinv Hcur Ht.
  destruct (lookup_lt_is_Some_2 (queue w.1) (Z.to_nat fromIndex)) as [x Hx];
    [unfold JsArray.length in Hf; lia|].
  rewrite (reorderQueue_other_fields w fromIndex toIndex).
  rewrite (reorderQueue_other_fields w fromIndex
             (JsArray.length (queue w.1) - 1)).
  rewrite !(reorderQueue_past_end w fromIndex _ x) by (done || lia).
  rewrite !reorderQueue_queueIndex.
  unfold queue_inv in Hinv.
  destruct (Z.eqb_spec (queueIndex w.1) fromIndex); [done|].
  destruct (Z.ltb_spec fromIndex (queueIndex w.1)),
    (Z.leb_spec (queueIndex w.1) toIndex),
    (Z.leb_spec (queueIndex w.1) (JsArray.length (queue w.1) - 1)),
    (Z.ltb_spec (queueIndex w.1) fromIndex),
    (Z.leb_spec toIndex (queueIndex w.1)),
    (Z.leb_spec (JsArray.length (queue w.1) - 1) (queueIndex w.1));
    cbn [andb]; (done || lia).
Qed.

Lemma addToQueue_index_kept w track :
  queue_inv w.1 → index_kept (AddToQueue track) w.
Proof.
  unfold index_kept, queue_inv, current_entry, JsArray.length. simpl.
  rewrite length_app. simpl. intros Hinv. split; [lia|].
  intros Hsel. right. split; [done|].
  rewrite !get_nonneg by lia. apply lookup_app_l. lia.
Qed.

Lemma clearQueue_index_kept w : index_kept ClearQueue w.
Proof. split; [by left | done]. Qed.

Lemma removeFromQueue_index_kept w index :
  queue_inv w.1 → 0 ≤ index → index_kept (RemoveFromQueue index) w.
Proof.
  intros Hinv Hi. unfold index_kept, current_entry. cbn [mutate].
  rewrite removeFromQueue_queue by done.
  assert (Hlen :
    JsArray.length (delete (Z.to_nat index) (queue w.1)) =
    if index <? JsArray.length (queue w.1)
    then JsArray.length (queue w.1) - 1 else JsArray.length (queue w.1)).
  { unfold JsArray.length.
    destruct (Z.ltb_spec index (Z.of_nat (length (queue w.1)))).
    - rewrite length_delete_pos by lia. lia.
    - rewrite delete_past_end by lia. done. }
  unfold queue_inv, removeFromQueue in *. cbn [fst snd queue queueIndex
    set_queue_queueIndex].
  rewrite filter_index_delete by done. rewrite Hlen. clear Hlen.
  destruct (Z.ltb_spec index (queueIndex w.1)) as [Hlt|Hge].
  - destruct (Z.ltb_spec index (JsArray.length (queue w.1))); [|lia].
    split; [lia|]. intros _. right. split; [lia|].
    rewrite !get_nonneg by lia.
    rewrite list_lookup_delete_ge by lia. f_equal. lia.
  - destruct (Z.eqb_spec index (queueIndex w.1)) as [Heq|Hne].
    + destruct (Z.ltb_spec index (JsArray.length (queue w.1))); [|lia].
      split; [|intros _; by left].
      cbn [andb].
      destruct (Z.leb_spec (JsArray.length (queue w.1) - 1) (queueIndex w.1));
        lia.
    + cbn [andb].
      split.
      * destruct (Z.ltb_spec index (JsArray.length (queue w.1))); lia.
      * intros Hsel. right. split; [done|].
        rewrite !get_nonneg by lia.
        apply list_lookup_delete_lt. lia.
Qed.

Lemma reorderQueue_index_kept w fromIndex toIndex :
  queue_inv w.1 →
  0 ≤ fromIndex < JsArray.length (queue w.1) →
  0 ≤ toIndex < JsArray.length (queue w.1) →
  index_kept (ReorderQueue fromIndex toIndex) w.
Proof.
  intros Hinv Hf Ht. unfold index_kept, current_entry, queue_inv in *.
  cbn [mutate]. unfold JsArray.length in Hf, Ht.
  destruct (lookup_lt_is_Some_2 (queue w.1) (Z.to_nat fromIndex)) as [x Hx];
    [lia|].
  rewrite (reorderQueue_queue w fromIndex toIndex x) by (done || lia).
  rewrite reorderQueue_queueIndex.
  unfold JsArray.length in *. rewrite length_insert_at.
  rewrite length_delete_pos by lia.
  set (qi := queueIndex w.1) in *.
  assert (Hins : ∀ n : nat,
    (take (Z.to_nat toIndex) (delete (Z.to_nat fromIndex) (queue w.1))
     ++ x :: drop (Z.to_nat toIndex)
               (delete (Z.to_nat fromIndex) (queue w.1))) !! n
    = if decide (n < Z.to_nat toIndex)%nat
      then delete (Z.to_nat fromIndex) (queue w.1) !! n
      else if decide (n = Z.to_nat toIndex) then Some x
      else delete (Z.to_nat fromIndex) (queue w.1) !! (n - 1)%nat).
  { intros n. apply lookup_insert_at. rewrite length_delete_pos by lia. lia. }
  destruct (Z.eqb_spec qi fromIndex) as [Heq|Hne].
  { split; [lia|]. intros _. right. split; [lia|].
    rewrite !get_nonneg by lia. rewrite Hins.
    destruct (decide _); [lia|]. destruct (decide _); [|lia]. by subst. }
  destruct (Z.ltb_spec fromIndex qi), (Z.leb_spec qi toIndex),
    (Z.ltb_spec qi fromIndex), (Z.leb_spec toIndex qi);
    cbn [andb]; (split; [lia|]); intros Hsel; right; (split; [lia|]);
    rewrite !get_nonneg by lia; rewrite Hins;
    repeat (destruct (decide _); try lia);
    try (rewrite list_lookup_delete_ge by lia; f_equal; lia);
    try (rewrite list_lookup_delete_lt by lia; f_equal; lia).
Qed.
End QueueIndex.

(** ** Transport: [playTrack], [next], [previous] *)

Section Transport.
Implicit Types (w : world) (p : Platform) (e : AudioEngine.t).

Lemma ensureInitialized_cooperative p e :
  cooperative p → engine_consistent e →
  ∃ e', AudioEngine.ensureInitialized p e = (Normal, e') ∧
        AudioEngine.isInitialized e' = true ∧
        is_Some (AudioEngine.audioElement e') ∧
        AudioEngine.currentTrack e' = AudioEngine.currentTrack e.
Proof.
  intros (Hctx & _ & _) Hcons.
  unfold AudioEngine.ensureInitialized, AudioEngine.initialize.
  destruct (AudioEngine.isInitialized e) eqn:Hinit.
  - exists e. auto.
  - rewrite Hctx. eexists. split; [reflexivity|]. simpl. eauto.
Qed.

Lemma loadSource_ok url e :
  is_Some (AudioEngine.audioElement e) →
  ∃ e', AudioEngine.loadSource url e = (Normal, e') ∧
        AudioEngine.isInitialized e' = AudioEngine.isInitialized e ∧
        is_Some (AudioEngine.audioElement e') ∧
        AudioEngine.currentTrack e' = AudioEngine.currentTrack e.
Proof.
  intros [a Ha]. unfold AudioEngine.loadSource. rewrite Ha.
  eexists. split; [reflexivity|]. simpl. eauto.
Qed.

(** Whatever the platform does, [setTrack] records the track in the store
    and in the engine and leaves the rest of the store alone. *)
Lemma setTrack_store p track w :
  (setTrack p track w).2.1 = set_currentTrack (Some track) w.1.
Proof.
  unfold setTrack.
  destruct (source track), (fileHandle track), (getFile_ok p),
    (truthy_url (streamUrl track));
    try reflexivity;
    repeat match goal with
      | |- context [AudioEngine.loadFile ?p ?f ?e] =>
          destruct (AudioEngine.loadFile p f e)
      | |- context [AudioEngine.loadStream ?p ?u ?e] =>
          destruct (AudioEngine.loadStream p u e)
      end; reflexivity.
Qed.

Lemma setTrack_cooperative p track w :
  cooperative p → engine_consistent w.2 →
  ∃ e', setTrack p track w = (Normal, (set_currentTrack (Some track) w.1, e')) ∧
        engine_consistent e' ∧
        AudioEngine.currentTrack e' = Some track.
Proof.
  intros Hp Hcons.
  assert (Hcons1 : engine_consistent (AudioEngine.setCurrentTrack track w.2))
    by exact Hcons.
  assert (Hload : ∀ url,
    ∃ e', (let (c, e1) := AudioEngine.ensureInitialized p
                            (AudioEngine.setCurrentTrack track w.2) in
           match c with
           | Normal => AudioEngine.loadSource url e1
           | Throw => (Throw, e1)
           end) = (Normal, e') ∧
          engine_consistent e' ∧ AudioEngine.currentTrack e' = Some track).
  { intros url.
    destruct (ensureInitialized_cooperative p _ Hp Hcons1)
      as (e1 & -> & Hi1 & Ha1 & Ht1).
    destruct (loadSource_ok url e1 Ha1) as (e2 & -> & Hi2 & Ha2 & Ht2).
    exists e2. split; [reflexivity|]. split; [by intros _|].
    by rewrite Ht2, Ht1. }
  destruct Hp as (_ & Hfile & _).
  unfold setTrack, AudioEngine.loadFile, AudioEngine.loadStream.
  rewrite Hfile.
  destruct (source track), (fileHandle track) as [file|],
    (truthy_url (streamUrl track)) as [url|];
    try (destruct (Hload ("blob:" +:+ file)) as (e' & -> & ? & ?); by eauto);
    try (destruct (Hload url) as (e' & -> & ? & ?); by eauto);
    eexists; (split; [reflexivity|]); by split.
Qed.

Lemma play_cooperative p e :
  cooperative p → engine_consistent e →
  ∃ e' a, AudioEngine.play p e = (Normal, e') ∧
          AudioEngine.audioElement e' = Some a ∧
          AudioEngine.paused a = false ∧
          AudioEngine.currentTrack e' = AudioEngine.currentTrack e.
Proof.
  intros Hp Hcons.
  destruct (ensureInitialized_cooperative p e Hp Hcons)
    as (e1 & He1 & _ & [a Ha] & Ht).
  destruct Hp as (_ & _ & Hplay).
  unfold AudioEngine.play. rewrite He1, Ha, Hplay.
  eexists _, _. split; [reflexivity|]. simpl. auto.
Qed.

(** Without a new queue, [playTrack] touches neither queue nor index. *)
Lemma playTrack_store p track w :
  (playTrack p track None w).2.1 =
  match (playTrack p track None w).1 with
  | Normal => set_isPlaying true (set_currentTrack (Some track) w.1)
  | Throw => set_currentTrack (Some track) w.1
  end.
Proof.
  unfold playTrack. pose proof (setTrack_store p track (w.1, w.2)) as Hs.
  destruct (setTrack p track (w.1, w.2)) as [[] [s2 e2]]; simpl in Hs;
    subst s2; [|reflexivity].
  destruct (AudioEngine.play p e2) as [[] e3]; reflexivity.
Qed.

Lemma playTrack_queueIndex p track w :
  queueIndex (playTrack p track None w).2.1 = queueIndex w.1.
Proof.
  rewrite playTrack_store. by destruct (playTrack p track None w).1.
Qed.

Lemma playTrack_currentTrack p track w :
  currentTrack (playTrack p track None w).2.1 = Some track.
Proof.
  rewrite playTrack_store. by destruct (playTrack p track None w).1.
Qed.

Lemma playTrack_cooperative p track w :
  cooperative p → engine_consistent w.2 →
  now_playing track (playTrack p track None w).
Proof.
  intros Hp Hcons. unfold playTrack.
  destruct (setTrack_cooperative p track (w.1, w.2) Hp Hcons)
    as (e2 & -> & Hcons2 & Ht2).
  destruct (play_cooperative p e2 Hp Hcons2) as (e3 & a & -> & Ha & Hpl & Ht3).
  repeat split; simpl; [by rewrite Ht3|]. eauto.
Qed.
End Transport.

Section NextPrevious.
Implicit Types (w : world) (p : Platform) (s : PlayerState).

Lemma track_at_position s i :
  queue_of_tracks s → 0 ≤ i < JsArray.length (queue s) →
  ∃ track, JsArray.get (queue s) i = Some (Some track) ∧
           track_at (queue s) i = Some track.
Proof.
  intros Htracks Hi. unfold JsArray.length in Hi.
  destruct (lookup_lt_is_Some_2 (queue s) (Z.to_nat i)) as [x Hx]; [lia|].
  destruct (proj1 (Forall_lookup _ _) Htracks _ _ Hx) as [track ->].
  exists track. unfold track_at. rewrite get_nonneg by lia.
  rewrite Hx. done.
Qed.

Lemma plays_entry_intro p i w track :
  JsArray.get (queue w.1) i = Some (Some track) →
  plays_entry p i w (playTrack p track None (set_queueIndex i w.1, w.2)).
Proof.
  intros Hget. exists track. split; [done|]. split; [done|].
  split; [by rewrite playTrack_queueIndex|].
  split; [by rewrite playTrack_currentTrack|].
  intros Hp Hcons. by apply playTrack_cooperative.
Qed.


Lemma length_pos_nonempty s :
  queue s ≠ [] → 0 < JsArray.length (queue s).
Proof.
  unfold JsArray.length. destruct (queue s); [done | simpl; lia].
Qed.

Lemma Qgt_bool_true (x y : Q) : Qgt_bool x y = true ↔ (y < x)%Q.
Proof.
  unfold Qgt_bool. rewrite negb_true_iff.
  destruct (Qle_bool x y) eqn:Hle.
  - apply Qle_bool_iff in Hle. split; [done|].
    intros Hlt. exfalso. exact (Qlt_not_le _ _ Hlt Hle).
  - split; [|done]. intros _. apply Qnot_le_lt. intros Hxy.
    apply Qle_bool_iff in Hxy. congruence.
Qed.

Lemma Qgt_bool_false (x y : Q) : Qgt_bool x y = false ↔ (x <= y)%Q.
Proof.
  unfold Qgt_bool. rewrite negb_false_iff. apply Qle_bool_iff.
Qed.

(** [seekTo(0)] puts the element, if there is one, at time 0. *)
Lemma seekTo_0 (e : AudioEngine.t) a :
  AudioEngine.audioElement e = Some a →
  ∃ a', AudioEngine.audioElement (AudioEngine.seekTo 0 e) = Some a' ∧
        (AudioEngine.currentTime a' == 0)%Q ∧
        AudioEngine.src a' = AudioEngine.src a ∧
        AudioEngine.paused a' = AudioEngine.paused a.
Proof.
  intros Ha. unfold AudioEngine.seekTo. rewrite Ha. eexists.
  split; [reflexivity|]. simpl. split; [|done].
  unfold Math_max, Math_min.
  destruct (Qle_bool (AudioEngine.duration_or_0 a) 0) eqn:Hd.
  - destruct (Qle_bool 0 (AudioEngine.duration_or_0 a)) eqn:Hd'; [|done].
    apply Qle_bool_iff in Hd, Hd'. by apply Qle_antisym.
  - done.
Qed.
End NextPrevious.

(** ** Clamping *)

Section Clamp.
Implicit Types (lo hi x : Q).

Lemma clamp_inside lo hi x :
  (lo <= x)%Q → (x <= hi)%Q → Math_max lo (Math_min hi x) = x.
Proof.
  intros Hlo Hhi. unfold Math_max, Math_min.
  rewrite (proj2 (Qle_bool_iff x hi) Hhi).
  by rewrite (proj2 (Qle_bool_iff lo x) Hlo).
Qed.

Lemma clamp_bounds lo hi x :
  (lo <= hi)%Q →
  (lo <= Math_max lo (Math_min hi x))%Q ∧ (Math_max lo (Math_min hi x) <= hi)%Q.
Proof.
  intros Hlh. unfold Math_max, Math_min.
  destruct (Qle_bool x hi) eqn:Hx.
  - apply Qle_bool_iff in Hx. destruct (Qle_bool lo x) eqn:Hl.
    + apply Qle_bool_iff in Hl. done.
    + split; [apply Qle_refl | done].
  - rewrite (proj2 (Qle_bool_iff lo hi) Hlh). split; [done | apply Qle_refl].
Qed.
End Clamp.

(** ** The equaliser graph *)

Section Equaliser.
Implicit Types (e : AudioEngine.t) (w : world) (gains : list Q).

Lemma with_eqNodes_same e : AudioEngine.with_eqNodes (AudioEngine.eqNodes e) e = e.
Proof. by destruct e. Qed.

Lemma setEQBand_in_range index gain e :
  0 ≤ index < JsArray.length (AudioEngine.eqNodes e) →
  AudioEngine.setEQBand index gain e =
  AudioEngine.with_eqNodes
    (<[Z.to_nat index := Math_max (-12) (Math_min 12 gain)]>
       (AudioEngine.eqNodes e)) e.
Proof.
  intros Hi. unfold AudioEngine.setEQBand.
  destruct (Z.leb_spec 0 index); [|lia].
  destruct (Z.ltb_spec index (JsArray.length (AudioEngine.eqNodes e))); [|lia].
  reflexivity.
Qed.

Lemma setEQBand_out_of_range index gain e :
  index < 0 ∨ JsArray.length (AudioEngine.eqNodes e) ≤ index →
  AudioEngine.setEQBand index gain e = e.
Proof.
  intros Hi. unfold AudioEngine.setEQBand.
  destruct (Z.leb_spec 0 index); [|done].
  destruct (Z.ltb_spec index (JsArray.length (AudioEngine.eqNodes e)));
    [lia | done].
Qed.

(** A vector of numbers never makes [setEQBands] throw. *)
Lemma setEQBands_from_numbers_normal gains : ∀ index e,
  (AudioEngine.setEQBands_from index (JsArray.Number <$> gains) e).1 = Normal.
Proof.
  induction gains as [|g gains IH]; intros index e; [reflexivity|].
  simpl. apply IH.
Qed.

(** Applied to a graph with as many filters as there are gains, it sets
    each filter to its clamped gain. *)
Lemma setEQBands_from_numbers gains : ∀ pre rest e,
  length rest = length gains →
  AudioEngine.eqNodes e = pre ++ rest →
  AudioEngine.setEQBands_from (Z.of_nat (length pre))
    (JsArray.Number <$> gains) e
  = (Normal,
     AudioEngine.with_eqNodes
       (pre ++ ((λ g, Math_max (-12) (Math_min 12 g)) <$> gains)) e).
Proof.
  induction gains as [|g gains IH]; intros pre rest e Hlen Hnodes.
  - destruct rest; [|done]. simpl. rewrite <- Hnodes.
    by rewrite with_eqNodes_same.
  - destruct rest as [|r0 rest]; [done|]. simpl in Hlen.
    cbn [fmap list_fmap AudioEngine.setEQBands_from AudioEngine.setEQBand_slot].
    rewrite setEQBand_in_range
      by (unfold JsArray.length; rewrite Hnodes, length_app; simpl; lia).
    rewrite Nat2Z.id, Hnodes.
    replace (length pre) with (length pre + 0)%nat at 2 by lia.
    rewrite insert_app_r. simpl.
    replace (Z.of_nat (length pre) + 1)
      with (Z.of_nat (length (pre ++ [Math_max (-12) (Math_min 12 g)])))
      by (rewrite length_app; simpl; lia).
    rewrite (IH _ rest); [| lia | simpl; by rewrite <- app_assoc].
    by rewrite <- app_assoc.
Qed.

Lemma setEQBands_numbers gains e :
  length gains = length (AudioEngine.eqNodes e) →
  AudioEngine.setEQBands (JsArray.Number <$> gains) e
  = (Normal,
     AudioEngine.with_eqNodes
       ((λ g, Math_max (-12) (Math_min 12 g)) <$> gains) e).
Proof.
  intros Hlen.
  exact (setEQBands_from_numbers gains [] (AudioEngine.eqNodes e) e
           (eq_sym Hlen) eq_refl).
Qed.

Lemma clamp_gains_inside gains :
  Forall gain_in_range gains →
  (λ g, Math_max (-12) (Math_min 12 g)) <$> gains = gains.
Proof.
  induction 1 as [|g gains [Hlo Hhi] _ IH]; [reflexivity|].
  cbn [fmap list_fmap]. f_equal; [by apply clamp_inside | exact IH].
Qed.

Lemma setEQEnabled_true e : AudioEngine.setEQEnabled true e = e.
Proof.
  unfold AudioEngine.setEQEnabled. simpl.
  rewrite list_fmap_id. apply with_eqNodes_same.
Qed.

(** [a[i] = v] for an array index puts the number at position [i]. *)
Lemma assign_lookup (a : list JsArray.slot) i v :
  0 ≤ i ≤ JsArray.max_index →
  JsArray.assign a i v !! Z.to_nat i = Some (JsArray.Number v).
Proof.
  intros Hi. unfold JsArray.assign, JsArray.length.
  destruct (Z.ltb_spec i 0); [lia|].
  destruct (Z.ltb_spec JsArray.max_index i); [lia|]. cbn [orb].
  destruct (Z.ltb_spec i (Z.of_nat (length a))).
  - apply list_lookup_insert_eq. lia.
  - rewrite lookup_app_r by lia.
    rewrite lookup_app_r by (rewrite length_replicate; lia).
    rewrite length_replicate.
    by replace (Z.to_nat i - length a - (Z.to_nat i - length a))%nat
      with 0%nat by lia.
Qed.

Lemma assign_negative (a : list JsArray.slot) i v :
  i < 0 → JsArray.assign a i v = a.
Proof.
  intros Hi. unfold JsArray.assign.
  by destruct (Z.ltb_spec i 0); [|lia].
Qed.

Lemma spread_numbers (a : list JsArray.slot) :
  Forall JsArray.is_number a → JsArray.spread a = a.
Proof.
  induction 1 as [|s a Hs _ IH]; [reflexivity|].
  unfold JsArray.spread in *. cbn [fmap list_fmap]. rewrite IH.
  by destruct s.
Qed.
End Equaliser.

(** ** Index arguments outside the array *)

Section OutOfRange.
Context {A : Type}.
Implicit Types (a : list A).

Lemma splice_insert_any a i x :
  ∃ k : nat, JsArray.splice i 0 [x] a = (take k a ++ x :: drop k a, []).
Proof.
  exists (Z.to_nat (JsArray.splice_start i a)).
  unfold JsArray.splice, JsArray.splice_count.
  assert (Hs : 0 ≤ JsArray.splice_start i a ≤ JsArray.length a).
  { unfold JsArray.splice_start, JsArray.length.
    destruct (Z.ltb_spec i 0); lia. }
  replace (Z.to_nat (Z.min (Z.max 0 0)
             (JsArray.length a - JsArray.splice_start i a)))
    with 0%nat by lia.
  by rewrite Nat.add_0_r, take_0.
Qed.

Lemma insert_at_Permutation a (k : nat) x :
  take k a ++ x :: drop k a ≡ₚ x :: a.
Proof.
  rewrite <- Permutation_middle. by rewrite take_drop.
Qed.
End OutOfRange.

Lemma store_unchanged (s : PlayerState) :
  set_queue_queueIndex (queue s) (queueIndex s) s = s.
Proof. by destruct s. Qed.

(** ** Presets *)

Section Presets.
Implicit Types (w : world) (preset : EQPreset).

Lemma find_preset_None presetName :
  (∀ preset, preset ∈ AudioEngine.EQ_PRESETS → name preset ≠ presetName) →
  find_preset presetName = None.
Proof.
  intros Hno. unfold find_preset.
  destruct (List.find _ _) as [preset|] eqn:Hfind; [|done].
  apply find_some in Hfind as [Hin Heq].
  apply String.eqb_eq in Heq. apply list_elem_of_In in Hin.
  by destruct (Hno preset Hin).
Qed.

(** The names of the presets are distinct: looking one up finds it. *)
Lemma find_preset_name preset :
  preset ∈ AudioEngine.EQ_PRESETS → find_preset (name preset) = Some preset.
Proof.
  intros Hin. unfold AudioEngine.EQ_PRESETS in Hin.
  repeat (apply elem_of_cons in Hin as [->|Hin]; [reflexivity|]).
  by apply elem_of_nil in Hin.
Qed.

Lemma preset_well_formed preset :
  preset ∈ AudioEngine.EQ_PRESETS →
  length (bands preset) = 10%nat ∧ Forall gain_in_range (bands preset).
Proof.
  intros Hin. unfold AudioEngine.EQ_PRESETS in Hin.
  repeat (apply elem_of_cons in Hin as [->|Hin];
          [split; [reflexivity | repeat constructor; discriminate]|]).
  by apply elem_of_nil in Hin.
Qed.
End Presets.

(** ** Specified properties *)

(** C1 (amended).  From a state whose index is -1 or a position of the
    queue, each of [addToQueue(track)], [removeFromQueue(i)] with [0 ≤ i],
    [reorderQueue(from, to)] with [from] and [to] positions of the queue,
    and [clearQueue()] leads to a state whose index is again -1 or a
    position of the new queue; and an index other than -1 denotes the entry
    that was current before the call, unless that entry is the one
    removed. *)
Theorem queue_index_kept_by_mutations (m : queue_mutation) (w : world) :
  queue_inv w.1 → positions_ok m w.1 → index_kept m w.
Proof.
  intros Hinv Hpos. destruct m as [track|index|fromIndex toIndex|].
  - by apply addToQueue_index_kept.
  - by apply removeFromQueue_index_kept.
  - destruct Hpos. by apply reorderQueue_index_kept.
  - apply clearQueue_index_kept.
Qed.

Lemma queue_index_kept_by_mutations_witness :
  queue_inv (three_tracks 1) ∧
  positions_ok (ReorderQueue 0 2) (three_tracks 1) ∧
  index_kept (ReorderQueue 0 2) (three_tracks 1, ready_engine).
Proof.
  assert (Hinv : queue_inv (three_tracks 1)).
  { right. unfold JsArray.length. simpl. lia. }
  assert (Hpos : positions_ok (ReorderQueue 0 2) (three_tracks 1)).
  { unfold positions_ok, JsArray.length. simpl. lia. }
  split; [exact Hinv|]. split; [exact Hpos|].
  exact (queue_index_kept_by_mutations (ReorderQueue 0 2)
           (three_tracks 1, ready_engine) Hinv Hpos).
Defined.

(** C1 as stated, for every index argument, fails: moving the current
    first entry of three to position 3 leaves the index at 3, past the end;
    removing at -1 while the second entry is current moves the index to the
    first entry although nothing was removed. *)
Lemma queue_index_lost_out_of_range :
  queue_inv (three_tracks 0) ∧
  ¬ index_kept (ReorderQueue 0 3) (three_tracks 0, ready_engine) ∧
  queue_inv (three_tracks 1) ∧
  ¬ index_kept (RemoveFromQueue (-1)) (three_tracks 1, ready_engine).
Proof.
  split; [right; unfold JsArray.length; simpl; lia|].
  split.
  { intros [Hinv _]. unfold queue_inv, JsArray.length in Hinv.
    simpl in Hinv. lia. }
  split; [right; unfold JsArray.length; simpl; lia|].
  intros [_ Hsame]. destruct Hsame as [Hrem|[_ Heq]].
  - simpl. lia.
  - simpl in Hrem. lia.
  - vm_compute in Heq. discriminate Heq.
Qed.



Example next_at_end_repeat_all :
  let r := next willing 0 (set_repeat all (three_tracks 2), ready_engine) in
  r.1 = Normal ∧ queueIndex r.2.1 = 0 ∧ currentTrack r.2.1 = Some track_a ∧
  isPlaying r.2.1 = true ∧
  AudioEngine.audioElement r.2.2
    = Some (AudioEngine.mkAudioElement "https://cdn/a" 0 0 false).
Proof. vm_compute. repeat split. Qed.

(** C3.  When strictly more than 3 seconds have elapsed, [previous()] seeks
    the engine to time 0 and leaves the store, and so the queue index, as
    it was.  Otherwise, on a non-empty queue of tracks, it moves the index
    to the prior entry, from index 0 (or from no selection) to the last
    entry, and plays it; the repeat mode [r] plays no part. *)
Theorem previous_threshold_and_wrap
    (p : Platform) (r : RepeatMode) (s : PlayerState) (e : AudioEngine.t) :
  ((3 < progress s)%Q →
   previous p (set_repeat r s, e)
     = (Normal, (set_repeat r s, AudioEngine.seekTo 0 e)) ∧
   ∀ a, AudioEngine.audioElement e = Some a →
        ∃ a', AudioEngine.audioElement (AudioEngine.seekTo 0 e) = Some a' ∧
              (AudioEngine.currentTime a' == 0)%Q) ∧
  ((progress s <= 3)%Q → queue s ≠ [] → queue_of_tracks s → queue_inv s →
   plays_entry p
     (if 0 <? queueIndex s then queueIndex s - 1
      else JsArray.length (queue s) - 1)
     (set_repeat r s, e) (previous p (set_repeat r s, e))).
Proof.
  split.
  - intros Hlate. split.
    + unfold previous. cbn [fst snd progress set_repeat].
      by rewrite (proj2 (Qgt_bool_true _ _) Hlate).
    + intros a Ha. destruct (seekTo_0 e a Ha) as (a' & Ha' & Ht & _). eauto.
  - intros Hearly Hne Htracks Hinv.
    pose proof (length_pos_nonempty _ Hne) as Hlen.
    unfold previous. cbn [fst snd progress queue queueIndex set_repeat].
    rewrite (proj2 (Qgt_bool_false _ _) Hearly).
    destruct (Z.eqb_spec (JsArray.length (queue s)) 0) as [|_]; [lia|].
    set (i := if 0 <? queueIndex s then queueIndex s - 1
              else JsArray.length (queue s) - 1).
    assert (Hi : 0 ≤ i < JsArray.length (queue s)).
    { unfold i, queue_inv in *. destruct (Z.ltb_spec 0 (queueIndex s)); lia. }
    destruct (track_at_position s i Htracks Hi) as (track & Hget & ->).
    by apply (plays_entry_intro p i (set_repeat r s, e) track).
Qed.

Lemma previous_threshold_and_wrap_witness :
  previous willing
      (set_repeat one (at_progress 10 (three_tracks 1)), ready_engine)
    = (Normal, (set_repeat one (at_progress 10 (three_tracks 1)),
                AudioEngine.seekTo 0 ready_engine)) ∧
  plays_entry willing 2
    (set_repeat off (at_progress 3 (three_tracks 0)), ready_engine)
    (previous willing
       (set_repeat off (at_progress 3 (three_tracks 0)), ready_engine)).
Proof.
  split.
  - apply (previous_threshold_and_wrap willing one
             (at_progress 10 (three_tracks 1)) ready_engine).
    reflexivity.
  - apply (previous_threshold_and_wrap willing off
             (at_progress 3 (three_tracks 0)) ready_engine);
      [ discriminate | discriminate
      | repeat constructor; eexists; reflexivity
      | right; unfold JsArray.length; simpl; lia ].
Defined.




(** C5 (amended).  [setEQBand(3, 20)] sets the graph's band 3 to 12 and
    [setEQBand(3, -20)] sets it to -12, while the EQ State stores the
    requested gain itself, 20 and -20; for every in-range band index the
    applied gain is the requested one clamped into [-12, +12]; with an
    out-of-range index the graph is left as it is; and any [setEQBand]
    after [applyEQPreset] makes the tracked preset name "Custom". *)
Theorem setEQBand_clamps_graph_only (w : world) :
  (3 < JsArray.length (AudioEngine.eqNodes w.2) →
   AudioEngine.eqNodes (setEQBand 3 20 w).2 !! 3%nat = Some 12%Q ∧
   eqBands (setEQBand 3 20 w).1 !! 3%nat = Some (JsArray.Number 20) ∧
   AudioEngine.eqNodes (setEQBand 3 (-20) w).2 !! 3%nat = Some (-12)%Q ∧
   eqBands (setEQBand 3 (-20) w).1 !! 3%nat = Some (JsArray.Number (-20))) ∧
  (∀ index gain,
     0 ≤ index < JsArray.length (AudioEngine.eqNodes w.2) →
     AudioEngine.eqNodes (setEQBand index gain w).2 !! Z.to_nat index
       = Some (Math_max (-12) (Math_min 12 gain)) ∧
     gain_in_range (Math_max (-12) (Math_min 12 gain)) ∧
     (gain_in_range gain → Math_max (-12) (Math_min 12 gain) = gain)) ∧
  (∀ index gain,
     index < 0 ∨ JsArray.length (AudioEngine.eqNodes w.2) ≤ index →
     (setEQBand index gain w).2 = w.2) ∧
  (∀ presetName index gain,
     eqPresetName (setEQBand index gain (applyEQPreset presetName w).2).1
       = "Custom").
Proof.
  assert (Hgraph : ∀ index gain,
    0 ≤ index < JsArray.length (AudioEngine.eqNodes w.2) →
    AudioEngine.eqNodes (setEQBand index gain w).2 !! Z.to_nat index
      = Some (Math_max (-12) (Math_min 12 gain))).
  { intros index gain Hi. unfold setEQBand. cbn [fst snd].
    rewrite setEQBand_in_range by done. cbn [AudioEngine.eqNodes
      AudioEngine.with_eqNodes].
    apply list_lookup_insert_eq. unfold JsArray.length in Hi. lia. }
  split; [|split; [|split]].
  - intros H3. split; [|split; [|split]].
    + apply (Hgraph 3 20%Q). lia.
    + apply (assign_lookup _ 3 20%Q). unfold JsArray.max_index. lia.
    + apply (Hgraph 3 (-20)%Q). lia.
    + apply (assign_lookup _ 3 (-20)%Q). unfold JsArray.max_index. lia.
  - intros index gain Hi. split; [by apply Hgraph|]. split.
    + by apply clamp_bounds.
    + intros [Hlo Hhi]. by apply clamp_inside.
  - intros index gain Hi. unfold setEQBand. cbn [snd].
    by apply setEQBand_out_of_range.
  - reflexivity.
Qed.

Lemma setEQBand_clamps_graph_only_witness :
  AudioEngine.eqNodes (setEQBand 3 20 (initial, ready_engine)).2 !! 3%nat
    = Some 12%Q ∧
  eqBands (setEQBand 3 20 (initial, ready_engine)).1 !! 3%nat
    = Some (JsArray.Number 20) ∧
  AudioEngine.eqNodes (setEQBand 3 (-20) (initial, ready_engine)).2 !! 3%nat
    = Some (-12)%Q ∧
  eqBands (setEQBand 3 (-20) (initial, ready_engine)).1 !! 3%nat
    = Some (JsArray.Number (-20)).
Proof.
  apply (setEQBand_clamps_graph_only (initial, ready_engine)).
  reflexivity.
Defined.

(** C5 as stated fails: after [setEQBand(3, 20)] the EQ State holds 20 at
    band 3, not 12, and after [setEQBand(3, -20)] it holds -20. *)
Lemma setEQBand_stores_unclamped :
  eqBands (setEQBand 3 20 (initial, ready_engine)).1 !! 3%nat
    = Some (JsArray.Number 20) ∧
  ¬ (20 == 12)%Q ∧
  eqBands (setEQBand 3 (-20) (initial, ready_engine)).1 !! 3%nat
    = Some (JsArray.Number (-20)) ∧
  ¬ (-20 == -12)%Q.
Proof. repeat split; discriminate. Qed.

(** C6 (amended).  With an out-of-range band index the engine's
    [setEQBand] completes without changing anything, even for an
    [undefined] gain, which an in-range index refuses with an error; on a
    queue whose index is -1 or a position, [removeFromQueue] with an index
    at or past the end does nothing.  [reorderQueue] from a position of
    the queue clamps the target for the queue: a target at or past the last
    position puts the moved entry last, a negative target counts back from
    the end and stops at the front, and for any target the queue keeps
    exactly its entries.  The index is clamped with it when the moved entry
    is not the current one (a target past the end leaves the state the
    target [length - 1] gives), and is the target as given when it is.  The
    store's [setEQBand] with a negative index leaves the graph alone and
    the gain vector at its length, unchanged when it holds numbers. *)
Theorem out_of_range_index_tolerated (w : world) :
  (∀ index gain,
     index < 0 ∨ JsArray.length (AudioEngine.eqNodes w.2) ≤ index →
     AudioEngine.setEQBand index gain w.2 = w.2) ∧
  (∀ index gain,
     index < 0 ∨ JsArray.length (AudioEngine.eqNodes w.2) ≤ index →
     AudioEngine.setEQBand_slot index gain w.2 = (Normal, w.2)) ∧
  (∀ index,
     queue_inv w.1 → JsArray.length (queue w.1) ≤ index →
     removeFromQueue index w = w) ∧
  (∀ fromIndex toIndex,
     0 ≤ fromIndex < JsArray.length (queue w.1) →
     queue (reorderQueue fromIndex toIndex w).1 ≡ₚ queue w.1) ∧
  (∀ fromIndex toIndex x,
     0 ≤ fromIndex → queue w.1 !! Z.to_nat fromIndex = Some x →
     (JsArray.length (queue w.1) - 1 ≤ toIndex →
      queue (reorderQueue fromIndex toIndex w).1
      = delete (Z.to_nat fromIndex) (queue w.1) ++ [x]) ∧
     (toIndex < 0 →
      queue (reorderQueue fromIndex toIndex w).1
      = take (Z.to_nat (Z.max (JsArray.length (queue w.1) - 1 + toIndex) 0))
             (delete (Z.to_nat fromIndex) (queue w.1))
        ++ x :: drop (Z.to_nat
                        (Z.max (JsArray.length (queue w.1) - 1 + toIndex) 0))
                     (delete (Z.to_nat fromIndex) (queue w.1))) ∧
     (queueIndex w.1 = fromIndex →
      queueIndex (reorderQueue fromIndex toIndex w).1 = toIndex) ∧
     (queue_inv w.1 → queueIndex w.1 ≠ fromIndex →
      JsArray.length (queue w.1) ≤ toIndex →
      reorderQueue fromIndex toIndex w
      = reorderQueue fromIndex (JsArray.length (queue w.1) - 1) w)) ∧
  (∀ index gain,
     index < 0 →
     (setEQBand index gain w).2 = w.2 ∧
     length (eqBands (setEQBand index gain w).1) = length (eqBands w.1) ∧
     (Forall JsArray.is_number (eqBands w.1) →
      eqBands (setEQBand index gain w).1 = eqBands w.1)).
Proof.
  split; [|split; [|split; [|split; [|split]]]].
  - intros index gain Hi. by apply setEQBand_out_of_range.
  - intros index [| |gain] Hi; cbn [AudioEngine.setEQBand_slot].
    + done.
    + destruct Hi as [Hi|Hi].
      * destruct (Z.leb_spec 0 index); [lia|done].
      * destruct (Z.ltb_spec index (JsArray.length (AudioEngine.eqNodes w.2)));
          [lia|]. by rewrite andb_false_r.
    + by rewrite setEQBand_out_of_range.
  - intros index Hinv Hi. destruct w as [s e]. unfold removeFromQueue.
    cbn [fst snd] in *. unfold queue_inv, JsArray.length in *.
    rewrite filter_index_delete by lia.
    rewrite delete_past_end by lia.
    destruct (Z.ltb_spec index (queueIndex s)); [lia|].
    destruct (Z.eqb_spec index (queueIndex s)); [lia|].
    cbn [andb]. by rewrite store_unchanged.
  - intros fromIndex toIndex Hf. unfold JsArray.length in Hf.
    destruct (lookup_lt_is_Some_2 (queue w.1) (Z.to_nat fromIndex)) as [x Hx];
      [lia|].
    unfold reorderQueue.
    rewrite (splice_remove _ _ _ (proj1 Hf) Hx). cbv beta iota zeta.
    destruct (splice_insert_any (delete (Z.to_nat fromIndex) (queue w.1))
                toIndex (mjoin (head [x]))) as [k ->].
    cbn [fst queue set_queue_queueIndex].
    rewrite insert_at_Permutation. simpl.
    symmetry. by apply delete_Permutation.
  - intros fromIndex toIndex x Hf Hx.
    pose proof (lookup_lt_Some _ _ _ Hx) as Hlt.
    split; [by apply reorderQueue_past_end|].
    split; [by apply reorderQueue_negative|]. split.
    + intros Hcur. rewrite reorderQueue_queueIndex.
      by destruct (Z.eqb_spec (queueIndex w.1) fromIndex).
    + intros Hinv Hcur Ht. apply reorderQueue_clamped; [|done..].
      unfold JsArray.length. lia.
  - intros index gain Hi. unfold setEQBand. cbn [fst snd eqBands
      set_eqBands_eqPresetName].
    rewrite assign_negative by done.
    split; [apply setEQBand_out_of_range; by left|].
    split; [unfold JsArray.spread; by rewrite length_fmap|].
    apply spread_numbers.
Qed.

Lemma out_of_range_index_tolerated_witness :
  AudioEngine.setEQBand 10 6 ready_engine = ready_engine ∧
  AudioEngine.setEQBand_slot 10 JsArray.Undefined ready_engine
    = (Normal, ready_engine) ∧
  removeFromQueue 3 (three_tracks 1, ready_engine)
    = (three_tracks 1, ready_engine) ∧
  queue (reorderQueue 0 7 (three_tracks 1, ready_engine)).1
    ≡ₚ queue (three_tracks 1) ∧
  queue (reorderQueue 0 7 (three_tracks 1, ready_engine)).1
    = [Some track_b; Some track_c; Some track_a] ∧
  queue (reorderQueue 2 (-5) (three_tracks 1, ready_engine)).1
    = [Some track_c; Some track_a; Some track_b] ∧
  reorderQueue 0 7 (three_tracks 1, ready_engine)
    = reorderQueue 0 2 (three_tracks 1, ready_engine) ∧
  eqBands (setEQBand (-1) 6 (initial, ready_engine)).1 = eqBands initial.
Proof.
  pose proof (out_of_range_index_tolerated (three_tracks 1, ready_engine))
    as (Hband & Hslot & Hremove & Hperm & Hreorder & _).
  pose proof (out_of_range_index_tolerated (initial, ready_engine))
    as (_ & _ & _ & _ & _ & Hstore).
  split; [apply (Hband 10 6%Q); right; unfold JsArray.length; simpl; lia|].
  split; [apply (Hslot 10 JsArray.Undefined); right;
          unfold JsArray.length; simpl; lia|].
  split; [apply (Hremove 3);
          [right; unfold JsArray.length; simpl; lia
          |unfold JsArray.length; simpl; lia]|].
  split; [apply (Hperm 0 7); unfold JsArray.length; simpl; lia|].
  split; [apply (proj1 (Hreorder 0 7 (Some track_a) ltac:(lia) eq_refl));
          unfold JsArray.length; simpl; lia|].
  split; [apply (proj1 (proj2 (Hreorder 2 (-5) (Some track_c) ltac:(lia)
                                 eq_refl))); lia|].
  split; [apply (proj2 (proj2 (proj2 (Hreorder 0 7 (Some track_a) ltac:(lia)
                                        eq_refl))));
          [right; unfold JsArray.length; simpl; lia
          |simpl; lia
          |unfold JsArray.length; simpl; lia]|].
  apply (Hstore (-1) 6%Q); [lia|]. repeat constructor.
Defined.

(** C6 as stated fails: the store's [setEQBand] with a band index past the
    end grows the gain vector beyond its 10 slots; [reorderQueue] from an
    index past the end inserts an [undefined] entry into the queue; and
    [reorderQueue] of the current entry to a target past the end leaves the
    index at that target, outside the queue. *)
Lemma out_of_range_index_breaks_state :
  length (eqBands initial) = 10%nat ∧
  length (eqBands (setEQBand 12 5 (initial, ready_engine)).1) = 13%nat ∧
  queue_of_tracks (three_tracks 0) ∧
  queue (reorderQueue 5 0 (three_tracks 0, ready_engine)).1
    = [None; Some track_a; Some track_b; Some track_c] ∧
  ¬ queue_of_tracks (reorderQueue 5 0 (three_tracks 0, ready_engine)).1 ∧
  queue_inv (three_tracks 0) ∧
  queueIndex (reorderQueue 0 7 (three_tracks 0, ready_engine)).1 = 7 ∧
  ¬ queue_inv (reorderQueue 0 7 (three_tracks 0, ready_engine)).1.
Proof.
  split; [reflexivity|]. split; [reflexivity|].
  split; [repeat constructor; eexists; reflexivity|].
  split; [reflexivity|]. split.
  { intros Htracks. apply Forall_cons in Htracks as [[track Hnone] _].
    discriminate Hnone. }
  split; [right; unfold JsArray.length; simpl; lia|].
  split; [reflexivity|].
  unfold queue_inv, JsArray.length. simpl. lia.
Qed.

(** C7.  [toggleEQ()] from enabled to disabled puts every band of the
    graph at gain 0 and changes nothing in the store but the flag, so the
    stored [eqBands] stay as they were; [toggleEQ()] back to enabled hands
    exactly that stored vector to the engine's [setEQBands] and keeps it in
    the store.  When the stored vector is an EQ State of the data model
    (numbers within -12..+12, as many as the graph has bands), the graph's
    gains are then equal to the stored vector. *)
Theorem toggleEQ_bypass_and_restore (w : world) :
  eqEnabled w.1 = true →
  (toggleEQ w).1 = Normal ∧
  (toggleEQ w).2.1 = set_eqEnabled false w.1 ∧
  eqBands (toggleEQ w).2.1 = eqBands w.1 ∧
  AudioEngine.eqNodes (toggleEQ w).2.2
    = (λ _, 0%Q) <$> AudioEngine.eqNodes w.2 ∧
  eqEnabled (toggleEQ (toggleEQ w).2).2.1 = true ∧
  eqBands (toggleEQ (toggleEQ w).2).2.1 = eqBands w.1 ∧
  (toggleEQ (toggleEQ w).2).2.2
    = (AudioEngine.setEQBands (eqBands w.1) (toggleEQ w).2.2).2 ∧
  (∀ gains,
     eqBands w.1 = JsArray.Number <$> gains →
     length gains = length (AudioEngine.eqNodes w.2) →
     Forall gain_in_range gains →
     (toggleEQ (toggleEQ w).2).1 = Normal ∧
     AudioEngine.eqNodes (toggleEQ (toggleEQ w).2).2.2 = gains).
Proof.
  intros Hon.
  assert (Hoff : toggleEQ w
    = (Normal, (set_eqEnabled false w.1, AudioEngine.setEQEnabled false w.2))).
  { unfold toggleEQ. by rewrite Hon. }
  assert (Hback : toggleEQ (toggleEQ w).2
    = ((AudioEngine.setEQBands (eqBands w.1)
          (AudioEngine.setEQEnabled false w.2)).1,
       (set_eqEnabled true (set_eqEnabled false w.1),
        (AudioEngine.setEQBands (eqBands w.1)
           (AudioEngine.setEQEnabled false w.2)).2))).
  { rewrite Hoff. unfold toggleEQ.
    cbn [fst snd eqEnabled eqBands set_eqEnabled negb].
    rewrite setEQEnabled_true.
    by destruct (AudioEngine.setEQBands _ _). }
  rewrite Hback, Hoff. cbn [fst snd].
  do 7 (split; [reflexivity|]).
  intros gains Hbands Hlen Hrange.
  rewrite Hbands, setEQBands_numbers
    by (unfold AudioEngine.setEQEnabled; simpl; by rewrite length_fmap).
  split; [reflexivity|]. by rewrite clamp_gains_inside.
Qed.

(** The "Rock" preset on an initialised engine, bypassed and restored. *)
Lemma toggleEQ_bypass_and_restore_witness :
  let w := (applyEQPreset "Rock" (initial, ready_engine)).2 in
  AudioEngine.eqNodes (toggleEQ w).2.2 = [0; 0; 0; 0; 0; 0; 0; 0; 0; 0]%Q ∧
  eqBands (toggleEQ w).2.1 = eqBands w.1 ∧
  AudioEngine.eqNodes (toggleEQ (toggleEQ w).2).2.2
    = [4; 3; 1; 0; -1; 0; 1; 3; 4; 4]%Q.
Proof.
  intros w.
  destruct (toggleEQ_bypass_and_restore w)
    as (_ & _ & Hkept & Hzero & _ & _ & _ & Hback); [reflexivity|].
  split; [exact Hzero|]. split; [exact Hkept|].
  apply (Hback [4; 3; 1; 0; -1; 0; 1; 3; 4; 4]%Q);
    [ reflexivity | reflexivity | repeat constructor; discriminate ].
Defined.

(** C8 (amended).  On an engine with its gain node, after [setVolume(v)],
    [toggleMute()], [toggleMute()] the engine's volume is the one
    [setVolume(v)] had put in effect, a value within [0, 1], and the store
    and the engine are exactly as [setVolume(v)] left them.  Muting keeps
    [v] in the store and sets the engine's volume to 0; un-muting hands the
    stored [v] back to the engine's [setVolume]. *)
Theorem mute_round_trip (v g0 : Q) (w : world) :
  AudioEngine.gainNode w.2 = Some g0 →
  let w1 := setVolume v w in
  let w2 := toggleMute w1 in
  let w3 := toggleMute w2 in
  (∃ g1, AudioEngine.gainNode w1.2 = Some g1 ∧ volume_in_range g1 ∧
         AudioEngine.gainNode w3.2 = Some g1) ∧
  (muted w2.1 = true ∧ volume w2.1 = v ∧ AudioEngine.gainNode w2.2 = Some 0%Q) ∧
  (muted w3.1 = false ∧ volume w3.1 = v ∧
   w3.2 = AudioEngine.setVolume v w2.2) ∧
  w3 = w1.
Proof.
  intros Hgain. unfold setVolume, toggleMute, AudioEngine.setVolume.
  cbn [fst snd muted volume set_volume_muted set_muted].
  rewrite Hgain. cbn [AudioEngine.gainNode AudioEngine.with_gainNode].
  split; [|by repeat split].
  exists (Math_max 0 (Math_min 1 v)).
  split; [done|]. split; [|done].
  apply (clamp_bounds 0 1 v). discriminate.
Qed.

Lemma mute_round_trip_witness :
  toggleMute (toggleMute (setVolume (7 # 10) (initial, ready_engine)))
  = setVolume (7 # 10) (initial, ready_engine).
Proof.
  apply (mute_round_trip (7 # 10) 1 (initial, ready_engine)). reflexivity.
Defined.

(** C8 as stated, for any [v], fails: after [setVolume(1.5)] and two
    [toggleMute()] the engine's volume is 1, not 1.5. *)
Lemma mute_round_trip_clamps :
  AudioEngine.gainNode
    (toggleMute (toggleMute (setVolume (3 # 2) (initial, ready_engine)))).2
    = Some 1%Q ∧
  ¬ (1 == 3 # 2)%Q.
Proof. split; [reflexivity | discriminate]. Qed.

(** C9.  For every [v], the store's [setVolume(v)] sets [muted] to false,
    stores [v] as the volume and forwards [v] to the engine's [setVolume],
    whatever the volume and the muted flag were before. *)
Theorem setVolume_unmutes (v : Q) (w : world) :
  muted (setVolume v w).1 = false ∧
  volume (setVolume v w).1 = v ∧
  (setVolume v w).1 = set_volume_muted v false w.1 ∧
  (setVolume v w).2 = AudioEngine.setVolume v w.2.
Proof. repeat split. Qed.

Example setVolume_unmutes_at_current_volume :
  let w := toggleMute (setVolume (7 # 10) (initial, ready_engine)) in
  muted w.1 = true ∧
  muted (setVolume (7 # 10) w).1 = false ∧
  muted (setVolume 0 w).1 = false ∧
  (setVolume (7 # 10) w).2 = (setVolume (7 # 10) (initial, ready_engine)).2.
Proof. repeat split. Qed.

(** C10.  [applyEQPreset(name)] with a name that no entry of [EQ_PRESETS]
    carries returns with the store and the engine exactly as they were.
    With the name of a preset, that preset's bands are applied to the
    engine, copied into [eqBands], and the name is recorded, the rest of
    the store staying as it was; on a graph of 10 bands the gains become
    the preset's bands. *)
Theorem applyEQPreset_known_or_noop (presetName : string) (w : world) :
  ((∀ preset, preset ∈ AudioEngine.EQ_PRESETS → name preset ≠ presetName) →
   applyEQPreset presetName w = (Normal, w)) ∧
  (∀ preset,
     preset ∈ AudioEngine.EQ_PRESETS → name preset = presetName →
     applyEQPreset presetName w
       = (Normal,
          (set_eqBands_eqPresetName (JsArray.Number <$> bands preset)
             presetName w.1,
           (AudioEngine.applyPreset preset w.2).2)) ∧
     eqBands (applyEQPreset presetName w).2.1
       = JsArray.Number <$> bands preset ∧
     eqPresetName (applyEQPreset presetName w).2.1 = presetName ∧
     (length (AudioEngine.eqNodes w.2) = 10%nat →
      AudioEngine.eqNodes (applyEQPreset presetName w).2.2 = bands preset)).
Proof.
  split.
  - intros Hno. unfold applyEQPreset. by rewrite find_preset_None.
  - intros preset Hin Hname.
    assert (Happly : applyEQPreset presetName w
      = (Normal,
         (set_eqBands_eqPresetName (JsArray.Number <$> bands preset)
            presetName w.1,
          (AudioEngine.applyPreset preset w.2).2))).
    { unfold applyEQPreset. rewrite <- Hname at 1.
      rewrite (find_preset_name preset Hin).
      pose proof (setEQBands_from_numbers_normal (bands preset) 0 w.2) as Hn.
      unfold AudioEngine.applyPreset, AudioEngine.setEQBands.
      destruct (AudioEngine.setEQBands_from 0 _ w.2) as [c e1].
      simpl in Hn. by subst c. }
    rewrite Happly. cbn [fst snd]. repeat split.
    intros Hnodes. destruct (preset_well_formed preset Hin) as [Hlen Hrange].
    unfold AudioEngine.applyPreset.
    rewrite setEQBands_numbers by congruence.
    cbn [snd AudioEngine.eqNodes AudioEngine.with_eqNodes].
    by apply clamp_gains_inside.
Qed.

Lemma applyEQPreset_known_or_noop_witness :
  applyEQPreset "Loud" (initial, ready_engine)
    = (Normal, (initial, ready_engine)) ∧
  AudioEngine.eqNodes (applyEQPreset "Jazz" (initial, ready_engine)).2.2
    = [2; 1; 0; 1; 2; 3; 3; 2; 2; 2]%Q.
Proof.
  split.
  - apply (applyEQPreset_known_or_noop "Loud" (initial, ready_engine)).
    intros preset Hin. unfold AudioEngine.EQ_PRESETS in Hin.
    repeat (apply elem_of_cons in Hin as [->|Hin]; [discriminate|]).
    by apply elem_of_nil in Hin.
  - apply (proj2 (applyEQPreset_known_or_noop "Jazz" (initial, ready_engine))
             (mkEQPreset "Jazz" [2; 1; 0; 1; 2; 3; 3; 2; 2; 2]%Q));
      [ do 7 apply list_elem_of_further; apply list_elem_of_here
      | reflexivity | reflexivity ].
Defined.

(** * Further properties of the engine and the store *)

(** ** [Math.max] and [Math.min] *)

Section MinMax.
Implicit Types (a b x : Q).

Lemma Qle_bool_false a b : Qle_bool a b = false → (b < a)%Q.
Proof.
  intros Hf. apply Qnot_le_lt. intros Hle.
  apply Qle_bool_iff in Hle. congruence.
Qed.

Lemma Math_min_le_l a b : (Math_min a b <= a)%Q.
Proof.
  unfold Math_min. destruct (Qle_bool b a) eqn:Hb.
  - by apply Qle_bool_iff.
  - apply Qle_refl.
Qed.

Lemma Math_min_le_r a b : (Math_min a b <= b)%Q.
Proof.
  unfold Math_min. destruct (Qle_bool b a) eqn:Hb.
  - apply Qle_refl.
  - apply Qlt_le_weak. by apply Qle_bool_false.
Qed.

Lemma Math_min_glb a b x : (x <= a)%Q → (x <= b)%Q → (x <= Math_min a b)%Q.
Proof. intros Ha Hb. unfold Math_min. by destruct (Qle_bool b a). Qed.

Lemma Math_max_ge_l a b : (a <= Math_max a b)%Q.
Proof.
  unfold Math_max. destruct (Qle_bool a b) eqn:Hb.
  - by apply Qle_bool_iff.
  - apply Qle_refl.
Qed.

Lemma Math_max_lub a b x : (a <= x)%Q → (b <= x)%Q → (Math_max a b <= x)%Q.
Proof. intros Ha Hb. unfold Math_max. by destruct (Qle_bool a b). Qed.

Lemma Math_max_r a b : (a <= b)%Q → Math_max a b = b.
Proof.
  intros Hab. unfold Math_max. by rewrite (proj2 (Qle_bool_iff a b) Hab).
Qed.

Lemma Math_min_l_eq a b : (a <= b)%Q → (Math_min a b == a)%Q.
Proof.
  intros Hab. unfold Math_min. destruct (Qle_bool b a) eqn:Hb.
  - apply Qle_bool_iff in Hb. by apply Qle_antisym.
  - reflexivity.
Qed.

Lemma or_0_eq x : (AudioEngine.or_0 x == x)%Q.
Proof.
  unfold AudioEngine.or_0. destruct (Qeq_bool x 0) eqn:Hx; [|reflexivity].
  symmetry. by apply Qeq_bool_iff.
Qed.

End MinMax.

Lemma duration_or_0_eq (a : AudioEngine.AudioElement) :
  (AudioEngine.duration_or_0 a == AudioEngine.el_duration a)%Q.
Proof. apply or_0_eq. Qed.

(** ** Seeking *)

(** X1.  [seekTo(time)] on an element of duration at least 0 puts the
    element at a time within [0, duration]: at [time] itself when that lies
    within the range; source, duration and paused flag stay. *)
Theorem seekTo_within_duration
    (time : Q) (e : AudioEngine.t) (a : AudioEngine.AudioElement) :
  AudioEngine.audioElement e = Some a →
  (0 <= AudioEngine.el_duration a)%Q →
  ∃ a',
    AudioEngine.audioElement (AudioEngine.seekTo time e) = Some a' ∧
    (0 <= AudioEngine.currentTime a')%Q ∧
    (AudioEngine.currentTime a' <= AudioEngine.el_duration a)%Q ∧
    ((0 <= time)%Q → (time <= AudioEngine.el_duration a)%Q →
     (AudioEngine.currentTime a' == time)%Q) ∧
    AudioEngine.src a' = AudioEngine.src a ∧
    AudioEngine.el_duration a' = AudioEngine.el_duration a ∧
    AudioEngine.paused a' = AudioEngine.paused a.
Proof.
  intros Ha Hd. unfold AudioEngine.seekTo. rewrite Ha. eexists.
  split; [reflexivity|]. cbn.
  pose proof (duration_or_0_eq a) as Hor.
  split; [apply Math_max_ge_l|]. split.
  - apply Math_max_lub; [done|]. rewrite <- Hor. apply Math_min_le_r.
  - split; [|done]. intros H0 Ht.
    rewrite Math_max_r.
    + apply Math_min_l_eq. by rewrite Hor.
    + apply Math_min_glb; [done|]. by rewrite Hor.
Qed.

Lemma seekTo_within_duration_witness :
  ∃ a',
    AudioEngine.audioElement
      (AudioEngine.seekTo 500
         (AudioEngine.with_audioElement
            (Some (AudioEngine.mkAudioElement "https://cdn/a" 12 180 false))
            ready_engine)) = Some a' ∧
    (AudioEngine.currentTime a' <= 180)%Q.
Proof.
  destruct (seekTo_within_duration 500
              (AudioEngine.with_audioElement
                 (Some (AudioEngine.mkAudioElement "https://cdn/a" 12 180 false))
                 ready_engine)
              (AudioEngine.mkAudioElement "https://cdn/a" 12 180 false))
    as (a' & Ha' & _ & Hle & _); [reflexivity | discriminate |].
  exists a'. split; [exact Ha' | exact Hle].
Defined.

(** ** Volume and equaliser before and after initialisation *)

Section EngineLifecycle.
Implicit Types (e : AudioEngine.t) (p : Platform).

Lemma initialize_uninitialised p e :
  AudioEngine.isInitialized e = false → context_ok p = true →
  AudioEngine.initialize p e
  = (Normal,
     {| AudioEngine.audioElement :=
          Some (AudioEngine.mkAudioElement "" 0 0 true);
        AudioEngine.eqNodes := [0; 0; 0; 0; 0; 0; 0; 0; 0; 0]%Q;
        AudioEngine.gainNode := Some 1%Q;
        AudioEngine.currentTrack := AudioEngine.currentTrack e;
        AudioEngine.isInitialized := true |}).
Proof.
  intros Hi Hc. unfold AudioEngine.initialize. by rewrite Hi, Hc.
Qed.

Lemma setEQBands_from_initialized gains : ∀ index e,
  AudioEngine.isInitialized
    (AudioEngine.setEQBands_from index gains e).2 = AudioEngine.isInitialized e ∧
  AudioEngine.currentTrack
    (AudioEngine.setEQBands_from index gains e).2 = AudioEngine.currentTrack e.
Proof.
  induction gains as [|s gains IH]; intros index e; [done|].
  cbn [AudioEngine.setEQBands_from].
  destruct s as [| |g]; cbn [AudioEngine.setEQBand_slot].
  - apply IH.
  - destruct ((0 <=? index) && (index <? JsArray.length (AudioEngine.eqNodes e)));
      [done | apply IH].
  - destruct (IH (index + 1) (AudioEngine.setEQBand index g e)) as [-> ->].
    unfold AudioEngine.setEQBand.
    by destruct ((0 <=? index) && (index <? JsArray.length (AudioEngine.eqNodes e))).
Qed.
End EngineLifecycle.

(** X2.  The engine's [setVolume] keeps the gain within [0, 1] once the
    gain node exists and does nothing before.  What is set before
    [initialize()] does not reach the graph: whether a volume, a band gain
    or a preset was applied to an uninitialised engine, a successful
    [initialize()] builds ten flat bands and a gain of 1. *)
Theorem settings_before_initialize_are_lost
    (p : Platform) (e : AudioEngine.t) (v g : Q) (index : Z)
    (preset : EQPreset) :
  (∀ g0, AudioEngine.gainNode e = Some g0 →
     ∃ g1, AudioEngine.gainNode (AudioEngine.setVolume v e) = Some g1 ∧
           volume_in_range g1) ∧
  (AudioEngine.gainNode e = None → AudioEngine.setVolume v e = e) ∧
  (AudioEngine.isInitialized e = false → context_ok p = true →
   ∀ e',
     e' = AudioEngine.setVolume v e ∨
     e' = AudioEngine.setEQBand index g e ∨
     e' = (AudioEngine.applyPreset preset e).2 →
     AudioEngine.eqNodes (AudioEngine.initialize p e').2
       = [0; 0; 0; 0; 0; 0; 0; 0; 0; 0]%Q ∧
     AudioEngine.gainNode (AudioEngine.initialize p e').2 = Some 1%Q).
Proof.
  split; [|split].
  - intros g0 Hg. unfold AudioEngine.setVolume. rewrite Hg.
    eexists. split; [reflexivity|]. by apply clamp_bounds.
  - intros Hg. unfold AudioEngine.setVolume. by rewrite Hg.
  - intros Hi Hc e' He'.
    assert (Hi' : AudioEngine.isInitialized e' = false).
    { destruct He' as [->|[->| ->]].
      - unfold AudioEngine.setVolume. by destruct (AudioEngine.gainNode e).
      - unfold AudioEngine.setEQBand.
        by destruct ((0 <=? index)
                     && (index <? JsArray.length (AudioEngine.eqNodes e))).
      - unfold AudioEngine.applyPreset, AudioEngine.setEQBands.
        by rewrite (proj1 (setEQBands_from_initialized _ _ _)). }
    by rewrite (initialize_uninitialised p e' Hi' Hc).
Qed.

Lemma settings_before_initialize_are_lost_witness :
  AudioEngine.gainNode
    (AudioEngine.initialize willing
       (AudioEngine.setVolume (3 # 10) AudioEngine.fresh)).2 = Some 1%Q.
Proof.
  apply (settings_before_initialize_are_lost willing AudioEngine.fresh
           (3 # 10) 0 0 (mkEQPreset "Flat" []));
    [reflexivity | reflexivity | by left].
Defined.

(** X3.  [initialize()] is idempotent: once a call has succeeded, any
    further call, on whatever platform, returns the engine unchanged, so it
    never resets gains or volume set since. *)
Theorem initialize_idempotent (p p' : Platform) (e : AudioEngine.t) :
  (AudioEngine.initialize p e).1 = Normal →
  AudioEngine.isInitialized (AudioEngine.initialize p e).2 = true ∧
  (∀ e', AudioEngine.isInitialized e' = true →
         AudioEngine.initialize p' e' = (Normal, e') ∧
         AudioEngine.ensureInitialized p' e' = (Normal, e')) ∧
  AudioEngine.initialize p' (AudioEngine.initialize p e).2
    = (Normal, (AudioEngine.initialize p e).2).
Proof.
  intros Hn.
  assert (Hinit : AudioEngine.isInitialized (AudioEngine.initialize p e).2 = true).
  { unfold AudioEngine.initialize in *.
    destruct (AudioEngine.isInitialized e) eqn:Hi; [done|].
    by destruct (context_ok p). }
  assert (Hany : ∀ e', AudioEngine.isInitialized e' = true →
            AudioEngine.initialize p' e' = (Normal, e') ∧
            AudioEngine.ensureInitialized p' e' = (Normal, e')).
  { intros e' He'. unfold AudioEngine.ensureInitialized, AudioEngine.initialize.
    by rewrite He'. }
  split; [done|]. split; [done|]. by apply Hany.
Qed.

Lemma initialize_idempotent_witness :
  AudioEngine.initialize (mkPlatform false false false) ready_engine
    = (Normal, ready_engine).
Proof.
  apply (initialize_idempotent willing (mkPlatform false false false)
           AudioEngine.fresh).
  reflexivity.
Defined.

Lemma setEQBands_numbers_any (gains : list Q) (e : AudioEngine.t) :
  AudioEngine.setEQBands (JsArray.Number <$> gains) e
  = (Normal,
     AudioEngine.with_eqNodes
       ((clamped_gain <$> take (length (AudioEngine.eqNodes e)) gains)
        ++ drop (length gains) (AudioEngine.eqNodes e)) e).
Proof.
  assert (Hpast : ∀ gs index e0,
    JsArray.length (AudioEngine.eqNodes e0) ≤ index →
    AudioEngine.setEQBands_from index (JsArray.Number <$> gs) e0 = (Normal, e0)).
  { induction gs as [|g gs IH]; intros index e0 Hi; [done|].
    cbn [fmap list_fmap AudioEngine.setEQBands_from AudioEngine.setEQBand_slot].
    rewrite setEQBand_out_of_range by (by right). apply IH. lia. }
  assert (Hgen : ∀ gs pre rest e0,
    AudioEngine.eqNodes e0 = pre ++ rest →
    AudioEngine.setEQBands_from (Z.of_nat (length pre))
      (JsArray.Number <$> gs) e0
    = (Normal,
       AudioEngine.with_eqNodes
         (pre ++ (clamped_gain <$> take (length rest) gs)
              ++ drop (length gs) rest) e0)).
  { induction gs as [|g gs IH]; intros pre rest e0 Hnodes.
    - rewrite take_nil. simpl. rewrite drop_0, <- Hnodes.
      by rewrite with_eqNodes_same.
    - destruct rest as [|r0 rest].
      + rewrite Hpast
          by (unfold JsArray.length; rewrite Hnodes, length_app; simpl; lia).
        simpl. rewrite <- Hnodes. by rewrite with_eqNodes_same.
      + cbn [fmap list_fmap AudioEngine.setEQBands_from
               AudioEngine.setEQBand_slot].
        rewrite setEQBand_in_range
          by (unfold JsArray.length; rewrite Hnodes, length_app; simpl; lia).
        rewrite Nat2Z.id, Hnodes.
        replace (length pre) with (length pre + 0)%nat at 2 by lia.
        rewrite insert_app_r. simpl.
        replace (Z.of_nat (length pre) + 1)
          with (Z.of_nat (length (pre ++ [clamped_gain g])))
          by (rewrite length_app; simpl; lia).
        rewrite (IH _ rest); [|simpl; by rewrite <- app_assoc].
        by rewrite <- app_assoc. }
  exact (Hgen gains [] (AudioEngine.eqNodes e) e eq_refl).
Qed.


(** X4.  [setEQBands] with any vector of numbers never throws and writes
    band by band: the graph's first bands take the clamped gains, as many
    as both the vector and the graph have; bands beyond a shorter vector
    keep their gain, and the tail of a longer vector is ignored. *)
Theorem setEQBands_partial (gains : list Q) (e : AudioEngine.t) :
  AudioEngine.setEQBands (JsArray.Number <$> gains) e
  = (Normal,
     AudioEngine.with_eqNodes
       ((clamped_gain <$> take (length (AudioEngine.eqNodes e)) gains)
        ++ drop (length gains) (AudioEngine.eqNodes e)) e).
Proof. apply setEQBands_numbers_any. Qed.

Example setEQBands_short_and_long :
  AudioEngine.eqNodes
    (AudioEngine.setEQBands (JsArray.Number <$> [20; -3]%Q) ready_engine).2
    = [12; -3; 0; 0; 0; 0; 0; 0; 0; 0]%Q ∧
  AudioEngine.eqNodes
    (AudioEngine.setEQBands
       (JsArray.Number <$> [1; 2; 3; 4; 5; 6; 7; 8; 9; 10; 11; 12]%Q)
       ready_engine).2
    = [1; 2; 3; 4; 5; 6; 7; 8; 9; 10]%Q.
Proof. split; reflexivity. Qed.

(** X5.  [setEQEnabled(false)] puts every band at 0 and keeps their
    number; [setEQEnabled(true)] changes nothing, so enabling alone never
    brings the gains back: after disabling and enabling, every band is
    still at 0. *)
Theorem setEQEnabled_does_not_restore (e : AudioEngine.t) :
  AudioEngine.eqNodes (AudioEngine.setEQEnabled false e)
    = replicate (length (AudioEngine.eqNodes e)) 0%Q ∧
  AudioEngine.setEQEnabled true e = e ∧
  AudioEngine.eqNodes
    (AudioEngine.setEQEnabled true (AudioEngine.setEQEnabled false e))
    = replicate (length (AudioEngine.eqNodes e)) 0%Q.
Proof.
  assert (Hzero : AudioEngine.eqNodes (AudioEngine.setEQEnabled false e)
    = replicate (length (AudioEngine.eqNodes e)) 0%Q).
  { unfold AudioEngine.setEQEnabled.
    cbn [AudioEngine.eqNodes AudioEngine.with_eqNodes].
    induction (AudioEngine.eqNodes e) as [|g l IH]; [done|].
    rewrite fmap_cons, IH. reflexivity. }
  split; [done|]. split; [apply setEQEnabled_true|].
  by rewrite setEQEnabled_true.
Qed.

(** X6.  [destroy()] is safe on an engine that was never initialised and
    idempotent.  On a destroyed engine [setVolume], [setEQBand],
    [setEQEnabled], [seekTo] and [pause] do nothing; the next [play()] on
    a cooperative platform builds a new graph with ten flat bands and gain
    1, and the current track survives. *)
Theorem destroy_then_reinitialize
    (p : Platform) (e : AudioEngine.t) (v g t0 : Q) (index : Z) (b : bool) :
  AudioEngine.destroy AudioEngine.fresh = AudioEngine.fresh ∧
  AudioEngine.destroy (AudioEngine.destroy e) = AudioEngine.destroy e ∧
  AudioEngine.setVolume v (AudioEngine.destroy e) = AudioEngine.destroy e ∧
  AudioEngine.setEQBand index g (AudioEngine.destroy e) = AudioEngine.destroy e ∧
  AudioEngine.setEQEnabled b (AudioEngine.destroy e) = AudioEngine.destroy e ∧
  AudioEngine.seekTo t0 (AudioEngine.destroy e) = AudioEngine.destroy e ∧
  AudioEngine.pause (AudioEngine.destroy e) = AudioEngine.destroy e ∧
  (cooperative p →
   AudioEngine.play p (AudioEngine.destroy e)
   = (Normal,
      {| AudioEngine.audioElement :=
           Some (AudioEngine.mkAudioElement "" 0 0 false);
         AudioEngine.eqNodes := [0; 0; 0; 0; 0; 0; 0; 0; 0; 0]%Q;
         AudioEngine.gainNode := Some 1%Q;
         AudioEngine.currentTrack := AudioEngine.currentTrack e;
         AudioEngine.isInitialized := true |})).
Proof.
  repeat (split; [reflexivity|]).
  split.
  { apply setEQBand_out_of_range. unfold JsArray.length. simpl.
    destruct (Z.lt_ge_cases index 0); [by left | right; lia]. }
  repeat (split; [reflexivity|]).
  intros (Hc & _ & Hp). unfold AudioEngine.play, AudioEngine.ensureInitialized.
  cbn [AudioEngine.isInitialized AudioEngine.destroy].
  rewrite initialize_uninitialised by done. cbn. by rewrite Hp.
Qed.

Lemma destroy_then_reinitialize_witness :
  AudioEngine.gainNode
    (AudioEngine.play willing
       (AudioEngine.destroy (AudioEngine.setVolume (1 # 4) ready_engine))).2
    = Some 1%Q.
Proof.
  pose proof (destroy_then_reinitialize willing
                (AudioEngine.setVolume (1 # 4) ready_engine) 0 0 0 0 true)
    as (_ & _ & _ & _ & _ & _ & _ & Hplay).
  rewrite Hplay; [reflexivity|]. repeat split.
Defined.

(** X7.  [getPlaybackInfo()] reports [isPlaying] as the negation of the
    element's paused flag; without an audio element it reports time 0,
    duration 0 and [isPlaying = true], also right after [pause()]. *)
Theorem getPlaybackInfo_without_element (e : AudioEngine.t) :
  (∀ a, AudioEngine.audioElement e = Some a →
     AudioEngine.info_isPlaying (AudioEngine.getPlaybackInfo e)
       = negb (AudioEngine.paused a) ∧
     (AudioEngine.info_currentTime (AudioEngine.getPlaybackInfo e)
        == AudioEngine.currentTime a)%Q ∧
     AudioEngine.info_isPlaying
       (AudioEngine.getPlaybackInfo (AudioEngine.pause e)) = false) ∧
  (AudioEngine.audioElement e = None →
     AudioEngine.getPlaybackInfo e = AudioEngine.mkPlaybackInfo 0 0 true ∧
     AudioEngine.info_isPlaying
       (AudioEngine.getPlaybackInfo (AudioEngine.pause e)) = true).
Proof.
  split.
  - intros a Ha. unfold AudioEngine.getPlaybackInfo, AudioEngine.pause.
    rewrite Ha. cbn. split; [done|]. split; [apply or_0_eq | done].
  - intros Ha. unfold AudioEngine.getPlaybackInfo, AudioEngine.pause.
    rewrite Ha. cbv beta iota. rewrite Ha. by split.
Qed.

Lemma getPlaybackInfo_without_element_witness :
  AudioEngine.getPlaybackInfo AudioEngine.fresh
    = AudioEngine.mkPlaybackInfo 0 0 true.
Proof.
  apply (getPlaybackInfo_without_element AudioEngine.fresh). reflexivity.
Defined.

(** ** Event listeners *)

Section Listeners.
Import EventListeners.
Implicit Types (m : EventListeners.t) (ev : AudioEngineEventType)
  (cb : callback) (s : list callback).

Lemma set_add_elem cb s : cb ∈ set_add cb s.
Proof.
  unfold set_add. destruct (decide (cb ∈ s)); [done|].
  apply elem_of_app. right. apply list_elem_of_here.
Qed.

Lemma set_add_NoDup cb s : NoDup s → NoDup (set_add cb s).
Proof.
  intros Hs. unfold set_add. destruct (decide (cb ∈ s)); [done|].
  apply NoDup_app. split; [done|]. split; [|apply NoDup_singleton].
  intros x Hx Hx'. apply list_elem_of_singleton in Hx'. by subst.
Qed.

Lemma set_delete_absent cb s : cb ∉ s → set_delete cb s = s.
Proof.
  unfold set_delete. induction s as [|x s IH]; intros Hcb; [done|].
  apply not_elem_of_cons in Hcb as [Hne Hcb].
  rewrite filter_cons_True by done. by rewrite IH.
Qed.

Lemma emit_on ev cb m : emit ev (on ev cb m) = set_add cb (emit ev m).
Proof.
  unfold emit, on. destruct (m !! ev) as [s|] eqn:Hm.
  - by rewrite lookup_alter_eq, Hm.
  - by rewrite lookup_alter_eq, lookup_insert_eq.
Qed.

Lemma emit_on_other ev ev' cb m :
  ev' ≠ ev → emit ev' (on ev cb m) = emit ev' m.
Proof.
  intros Hne. unfold emit, on.
  rewrite lookup_alter_ne by done.
  destruct (m !! ev); [done|]. by rewrite lookup_insert_ne.
Qed.

Lemma emit_off ev cb m : emit ev (off ev cb m) = set_delete cb (emit ev m).
Proof.
  unfold emit, off. rewrite lookup_alter_eq.
  by destruct (m !! ev).
Qed.
End Listeners.

(** X8.  [on(event, callback)] registers the callback once: the next
    [emit(event)] calls it, after the listeners registered before it and
    in their order; registering it again changes nothing; the listeners of
    other events are untouched; and no set ever holds a callback twice. *)
Theorem on_registers_once
    (ev : EventListeners.AudioEngineEventType) (cb : EventListeners.callback)
    (m : EventListeners.t) :
  EventListeners.emit ev (EventListeners.on ev cb m)
    = (if decide (cb ∈ EventListeners.emit ev m) then EventListeners.emit ev m
       else EventListeners.emit ev m ++ [cb]) ∧
  cb ∈ EventListeners.emit ev (EventListeners.on ev cb m) ∧
  EventListeners.on ev cb (EventListeners.on ev cb m)
    = EventListeners.on ev cb m ∧
  (∀ ev', ev' ≠ ev →
     EventListeners.emit ev' (EventListeners.on ev cb m)
       = EventListeners.emit ev' m) ∧
  (listeners_wf m → listeners_wf (EventListeners.on ev cb m)).
Proof.
  split; [apply emit_on|]. split; [rewrite emit_on; apply set_add_elem|].
  split; [|split].
  - apply map_eq. intros ev'. unfold EventListeners.on at 1.
    assert (Hs : ∃ s, EventListeners.on ev cb m !! ev = Some s ∧ cb ∈ s).
    { pose proof (emit_on ev cb m) as He. unfold EventListeners.emit in He.
      destruct (EventListeners.on ev cb m !! ev) as [s|] eqn:Hl.
      - exists s. split; [done|]. rewrite He. apply set_add_elem.
      - exfalso. pose proof (set_add_elem cb (EventListeners.emit ev m)) as Hin.
        unfold EventListeners.emit in Hin. rewrite <- He in Hin.
        by apply elem_of_nil in Hin. }
    destruct Hs as (s & Hl & Hin). rewrite Hl. cbv beta iota zeta.
    destruct (decide (ev = ev')) as [<-|Hne].
    + rewrite lookup_alter_eq, Hl. simpl. unfold EventListeners.set_add.
      by rewrite decide_True.
    + by rewrite lookup_alter_ne.
  - intros ev' Hne. by apply emit_on_other.
  - intros Hwf ev' s Hs. unfold EventListeners.on in Hs.
    destruct (decide (ev = ev')) as [<-|Hne].
    + rewrite lookup_alter_eq in Hs.
      destruct (m !! ev) as [s0|] eqn:Hm.
      * rewrite Hm in Hs. simpl in Hs. injection Hs as <-.
        apply set_add_NoDup. by apply (Hwf ev).
      * rewrite lookup_insert_eq in Hs. simpl in Hs. injection Hs as <-.
        apply set_add_NoDup, NoDup_nil_2.
    + rewrite lookup_alter_ne in Hs by done.
      destruct (m !! ev); [by apply (Hwf ev')|].
      rewrite lookup_insert_ne in Hs by done. by apply (Hwf ev').
Qed.

Lemma on_registers_once_witness :
  listeners_wf
    (EventListeners.on EventListeners.ended 7%nat
       (EventListeners.on EventListeners.ended 7%nat ∅)) ∧
  EventListeners.emit EventListeners.ended
    (EventListeners.on EventListeners.ended 7%nat
       (EventListeners.on EventListeners.ended 7%nat ∅)) = [7%nat].
Proof.
  pose proof (on_registers_once EventListeners.ended 7%nat ∅)
    as (Hfirst & _ & Hagain & _ & Hwf).
  rewrite Hagain. split.
  - apply Hwf. apply map_Forall_empty.
  - rewrite Hfirst. reflexivity.
Defined.

(** X9.  [off(event, callback)] removes exactly that callback: the next
    [emit(event)] does not call it and calls the remaining listeners in
    their order; other events are untouched; on an event without listeners
    it does nothing; and [off] after [on] of a callback that was not
    registered restores the listeners that [emit] calls. *)
Theorem off_unregisters
    (ev : EventListeners.AudioEngineEventType) (cb : EventListeners.callback)
    (m : EventListeners.t) :
  EventListeners.emit ev (EventListeners.off ev cb m)
    = filter (λ x, x ≠ cb) (EventListeners.emit ev m) ∧
  (cb ∉ EventListeners.emit ev (EventListeners.off ev cb m)) ∧
  (∀ ev', ev' ≠ ev →
     EventListeners.emit ev' (EventListeners.off ev cb m)
       = EventListeners.emit ev' m) ∧
  (m !! ev = None → EventListeners.off ev cb m = m) ∧
  (cb ∉ EventListeners.emit ev m →
   EventListeners.emit ev (EventListeners.off ev cb (EventListeners.on ev cb m))
     = EventListeners.emit ev m).
Proof.
  split; [apply emit_off|]. split; [|split; [|split]].
  - rewrite emit_off. unfold EventListeners.set_delete.
    intros Hin. apply list_elem_of_filter in Hin as [Hne _]. done.
  - intros ev' Hne. unfold EventListeners.emit, EventListeners.off.
    by rewrite lookup_alter_ne.
  - intros Hnone. apply map_eq. intros ev'. unfold EventListeners.off.
    destruct (decide (ev = ev')) as [<-|Hne].
    + by rewrite lookup_alter_eq, Hnone.
    + by rewrite lookup_alter_ne.
  - intros Hout. rewrite emit_off, emit_on.
    unfold EventListeners.set_add. rewrite decide_False by done.
    unfold EventListeners.set_delete. rewrite filter_app.
    rewrite filter_cons_False by (intros Hne; by apply Hne).
    rewrite filter_nil, app_nil_r. by apply set_delete_absent.
Qed.

Lemma off_unregisters_witness :
  EventListeners.emit EventListeners.timeupdate
    (EventListeners.off EventListeners.timeupdate 2%nat
       (EventListeners.on EventListeners.timeupdate 2%nat
          (EventListeners.on EventListeners.timeupdate 1%nat ∅))) = [1%nat].
Proof.
  rewrite (proj2 (proj2 (proj2 (proj2
    (off_unregisters EventListeners.timeupdate 2%nat
       (EventListeners.on EventListeners.timeupdate 1%nat ∅)))))).
  - reflexivity.
  - vm_compute. intros Hin. inversion Hin as [|? ? ? Hin']; subst.
    inversion Hin'.
Defined.

(** ** Starting a track *)

Section PlayTrack.
Implicit Types (w : world) (p : Platform) (e : AudioEngine.t) (q : list Track).

Lemma playTrack_new_queue p track q w :
  playTrack p track (Some q) w
  = playTrack p track None
      (set_queue_queueIndex (Some <$> q)
         (if 0 <=? JsArray.findIndex (λ t, String.eqb (id t) (id track)) q
          then JsArray.findIndex (λ t, String.eqb (id t) (id track)) q
          else 0) w.1, w.2).
Proof. reflexivity. Qed.

Lemma playTrack_queue p track w :
  queue (playTrack p track None w).2.1 = queue w.1.
Proof.
  rewrite playTrack_store. by destruct (playTrack p track None w).1.
Qed.

Lemma playTrack_partialize p track w :
  partialize (playTrack p track None w).2.1 = partialize w.1.
Proof.
  rewrite playTrack_store. by destruct (playTrack p track None w).1.
Qed.

Lemma findIndex_from_found {A} (f : A → bool) (a : list A) : ∀ i (k : nat) x,
  a !! k = Some x → f x = true →
  (∀ (j : nat) y, (j < k)%nat → a !! j = Some y → f y = false) →
  JsArray.findIndex_from f i a = i + Z.of_nat k.
Proof.
  induction a as [|y a IH]; intros i k x Hk Hx Hbefore; [done|].
  destruct k as [|k]; simpl in *.
  - injection Hk as ->. rewrite Hx. lia.
  - rewrite (Hbefore 0%nat y) by (lia || done).
    rewrite (IH (i + 1) k x Hk Hx); [lia|].
    intros j y' Hj Hy'. apply (Hbefore (S j) y'); [lia | done].
Qed.

Lemma findIndex_from_absent {A} (f : A → bool) (a : list A) : ∀ i,
  Forall (λ x, f x = false) a → JsArray.findIndex_from f i a = -1.
Proof.
  induction a as [|y a IH]; intros i Hall; [done|].
  apply Forall_cons in Hall as [Hy Hall]. simpl. rewrite Hy. by apply IH.
Qed.

Lemma findIndex_from_range {A} (f : A → bool) (a : list A) : ∀ i,
  0 ≤ i →
  JsArray.findIndex_from f i a = -1 ∨
  i ≤ JsArray.findIndex_from f i a < i + JsArray.length a.
Proof.
  unfold JsArray.length.
  induction a as [|y a IH]; intros i Hi; [by left|].
  simpl. destruct (f y); [right; lia|].
  destruct (IH (i + 1)) as [->|Hr]; [lia | by left | right; lia].
Qed.

Lemma play_Normal_unpaused p e :
  (AudioEngine.play p e).1 = Normal →
  ∀ a, AudioEngine.audioElement (AudioEngine.play p e).2 = Some a →
       AudioEngine.paused a = false.
Proof.
  unfold AudioEngine.play.
  destruct (AudioEngine.ensureInitialized p e) as [[] e1]; [|done].
  destruct (AudioEngine.audioElement e1) as [a1|] eqn:Ha1.
  - destruct (play_ok p); [|done]. intros _ a Ha. simpl in Ha.
    by injection Ha as <-.
  - intros _ a Ha. simpl in Ha. congruence.
Qed.

Lemma ensureInitialized_ready p e :
  AudioEngine.isInitialized e = true →
  AudioEngine.ensureInitialized p e = (Normal, e).
Proof. intros Hi. unfold AudioEngine.ensureInitialized. by rewrite Hi. Qed.

Lemma loadStream_ready p url e a :
  AudioEngine.isInitialized e = true → AudioEngine.audioElement e = Some a →
  AudioEngine.loadStream p url e
  = (Normal,
     AudioEngine.with_audioElement
       (Some (AudioEngine.mkAudioElement url 0 0 true)) e).
Proof.
  intros Hi Ha. unfold AudioEngine.loadStream, AudioEngine.loadSource.
  by rewrite ensureInitialized_ready, Ha.
Qed.

Lemma loadFile_ready p file e a :
  AudioEngine.isInitialized e = true → AudioEngine.audioElement e = Some a →
  AudioEngine.loadFile p file e
  = (Normal,
     AudioEngine.with_audioElement
       (Some (AudioEngine.mkAudioElement ("blob:" +:+ file) 0 0 true)) e).
Proof.
  intros Hi Ha. unfold AudioEngine.loadFile, AudioEngine.loadSource.
  by rewrite ensureInitialized_ready, Ha.
Qed.

Lemma play_ready p e a :
  AudioEngine.isInitialized e = true → AudioEngine.audioElement e = Some a →
  AudioEngine.play p e
  = if play_ok p then
      (Normal,
       AudioEngine.with_audioElement
         (Some (AudioEngine.mkAudioElement (AudioEngine.src a)
                  (AudioEngine.currentTime a) (AudioEngine.el_duration a)
                  false)) e)
    else (Throw, e).
Proof.
  intros Hi Ha. unfold AudioEngine.play.
  by rewrite ensureInitialized_ready, Ha.
Qed.

Lemma setTrack_stream p track w url :
  truthy_url (streamUrl track) = Some url →
  (source track = local → fileHandle track = None) →
  setTrack p track w
  = ((AudioEngine.loadStream p url (AudioEngine.setCurrentTrack track w.2)).1,
     (set_currentTrack (Some track) w.1,
      (AudioEngine.loadStream p url
         (AudioEngine.setCurrentTrack track w.2)).2)).
Proof.
  intros Hurl Hnolocal. unfold setTrack. rewrite Hurl.
  destruct (AudioEngine.loadStream p url _) as [c e2].
  destruct (source track) eqn:Hsrc;
    [by rewrite Hnolocal | by destruct (fileHandle track)
    | by destruct (fileHandle track)].
Qed.

Lemma setTrack_local p track w file :
  source track = local → fileHandle track = Some file →
  getFile_ok p = true →
  setTrack p track w
  = ((AudioEngine.loadFile p file (AudioEngine.setCurrentTrack track w.2)).1,
     (set_currentTrack (Some track) w.1,
      (AudioEngine.loadFile p file
         (AudioEngine.setCurrentTrack track w.2)).2)).
Proof.
  intros Hsrc Hfile Hget. unfold setTrack. rewrite Hsrc, Hfile, Hget.
  by destruct (AudioEngine.loadFile p file _) as [c e2].
Qed.

Lemma setTrack_sourceless p track w :
  sourceless track →
  setTrack p track w
  = (Normal, (set_currentTrack (Some track) w.1,
              AudioEngine.setCurrentTrack track w.2)).
Proof.
  intros [Hurl Hnolocal]. unfold setTrack. rewrite Hurl.
  destruct (source track) eqn:Hsrc;
    [by rewrite Hnolocal | by destruct (fileHandle track)
    | by destruct (fileHandle track)].
Qed.
End PlayTrack.

(** X10.  [playTrack(track, queue)] replaces the queue by the one given and
    makes [track] the current track, whatever the platform then does.  The
    index becomes the position of the first queue entry with the track's
    id, or 0 when no entry has it; it is a position of the new queue unless
    that queue is empty, in which case the index is 0 on an empty queue. *)
Theorem playTrack_with_queue
    (p : Platform) (track : Track) (q : list Track) (w : world) :
  queue (playTrack p track (Some q) w).2.1 = Some <$> q ∧
  currentTrack (playTrack p track (Some q) w).2.1 = Some track ∧
  (∀ (k : nat) t,
     q !! k = Some t → id t = id track →
     (∀ (j : nat) t', (j < k)%nat → q !! j = Some t' → id t' ≠ id track) →
     queueIndex (playTrack p track (Some q) w).2.1 = Z.of_nat k) ∧
  (Forall (λ t, id t ≠ id track) q →
   queueIndex (playTrack p track (Some q) w).2.1 = 0) ∧
  (q ≠ [] → queue_inv (playTrack p track (Some q) w).2.1) ∧
  (q = [] →
   queueIndex (playTrack p track (Some q) w).2.1 = 0 ∧
   ¬ queue_inv (playTrack p track (Some q) w).2.1).
Proof.
  rewrite playTrack_new_queue.
  unfold queue_inv. rewrite playTrack_queue, playTrack_queueIndex,
    playTrack_currentTrack.
  cbn [fst snd queue queueIndex set_queue_queueIndex].
  set (f := λ t : Track, String.eqb (id t) (id track)).
  split; [done|]. split; [done|]. split; [|split; [|split]].
  - intros k t Hk Hid Hfirst. unfold JsArray.findIndex.
    rewrite (findIndex_from_found f q 0 k t Hk).
    + destruct (Z.leb_spec 0 (0 + Z.of_nat k)); lia.
    + unfold f. by apply String.eqb_eq.
    + intros j t' Hj Ht'. unfold f. apply String.eqb_neq. by apply (Hfirst j).
  - intros Hnone. unfold JsArray.findIndex.
    rewrite findIndex_from_absent; [done|].
    eapply Forall_impl; [exact Hnone|]. intros t Ht. unfold f.
    by apply String.eqb_neq.
  - intros Hne. right. unfold JsArray.length, JsArray.findIndex.
    rewrite length_fmap.
    assert (0 < Z.of_nat (length q)) by (destruct q; [done | simpl; lia]).
    destruct (findIndex_from_range f q 0) as [->|Hr]; [lia | simpl; lia |].
    unfold JsArray.length in Hr.
    destruct (Z.leb_spec 0 (JsArray.findIndex_from f 0 q)); lia.
  - intros ->. split; [done|]. unfold JsArray.length. simpl. lia.
Qed.

Lemma playTrack_with_queue_witness :
  queueIndex
    (playTrack willing track_b (Some [track_a; track_b; track_c])
       (initial, ready_engine)).2.1 = 1 ∧
  queue_inv
    (playTrack willing track_b (Some [track_a; track_b; track_c])
       (initial, ready_engine)).2.1.
Proof.
  pose proof (playTrack_with_queue willing track_b [track_a; track_b; track_c]
                (initial, ready_engine)) as (_ & _ & Hfound & _ & Hinv & _).
  split.
  - apply (Hfound 1%nat track_b); [reflexivity | reflexivity |].
    intros j t' Hj Ht'. destruct j as [|j]; [|lia].
    injection Ht' as <-. discriminate.
  - apply Hinv. discriminate.
Defined.

(** X11.  What [playTrack] makes audible on a cooperative platform.  A
    track with a stream URL ends with the element on that URL, rewound and
    playing; a local track with a file handle ends on the object URL of its
    file.  A track with neither loads nothing: the element keeps the
    source and position it had and is set playing, under the new current
    track. *)
Theorem playTrack_source
    (p : Platform) (track : Track) (w : world) (a : AudioEngine.AudioElement) :
  cooperative p →
  AudioEngine.isInitialized w.2 = true →
  AudioEngine.audioElement w.2 = Some a →
  (∀ url, truthy_url (streamUrl track) = Some url →
          (source track = local → fileHandle track = None) →
     AudioEngine.audioElement (playTrack p track None w).2.2
       = Some (AudioEngine.mkAudioElement url 0 0 false)) ∧
  (∀ file, source track = local → fileHandle track = Some file →
     AudioEngine.audioElement (playTrack p track None w).2.2
       = Some (AudioEngine.mkAudioElement ("blob:" +:+ file) 0 0 false)) ∧
  (sourceless track →
     AudioEngine.audioElement (playTrack p track None w).2.2
       = Some (AudioEngine.mkAudioElement (AudioEngine.src a)
                 (AudioEngine.currentTime a) (AudioEngine.el_duration a) false) ∧
     currentTrack (playTrack p track None w).2.1 = Some track ∧
     isPlaying (playTrack p track None w).2.1 = true).
Proof.
  intros (Hc & Hf & Hp) Hi Ha.
  assert (Hi1 : AudioEngine.isInitialized
                  (AudioEngine.setCurrentTrack track w.2) = true) by done.
  assert (Ha1 : AudioEngine.audioElement
                  (AudioEngine.setCurrentTrack track w.2) = Some a) by done.
  split; [|split].
  - intros url Hurl Hnolocal. unfold playTrack. cbn [fst snd].
    rewrite (setTrack_stream p track (w.1, w.2) url Hurl Hnolocal).
    cbn [fst snd]. rewrite (loadStream_ready p url _ a Hi1 Ha1).
    cbn [fst snd]. erewrite play_ready; [|done|reflexivity].
    by rewrite Hp.
  - intros file Hsrc Hfile. unfold playTrack. cbn [fst snd].
    rewrite (setTrack_local p track (w.1, w.2) file Hsrc Hfile Hf).
    cbn [fst snd]. rewrite (loadFile_ready p file _ a Hi1 Ha1).
    cbn [fst snd]. erewrite play_ready; [|done|reflexivity].
    by rewrite Hp.
  - intros Hnone. unfold playTrack. cbn [fst snd].
    rewrite (setTrack_sourceless p track (w.1, w.2) Hnone).
    cbv beta iota zeta. cbn [fst snd].
    rewrite (play_ready p _ a Hi1 Ha1), Hp. done.
Qed.

Lemma playTrack_source_witness :
  AudioEngine.audioElement
    (playTrack willing track_a None
       (playTrack willing track_c None (initial, ready_engine)).2).2.2
    = Some (AudioEngine.mkAudioElement "https://cdn/a" 0 0 false).
Proof.
  eapply (proj1 (playTrack_source willing track_a
                   (playTrack willing track_c None (initial, ready_engine)).2
                   (AudioEngine.mkAudioElement "blob:c.mp3" 0 0 false)
                   ltac:(repeat split) eq_refl eq_refl));
    [reflexivity | discriminate].
Defined.

(** X12.  When [playTrack] fails.  If the file of a local track cannot be
    read, the call is rejected with the store already naming the new
    track while [isPlaying], the queue and the audio element are as
    before.  If the platform refuses [play()] after a stream was loaded,
    the call is rejected with the element loaded but paused while the
    store keeps the [isPlaying] it had: a store that said "playing" still
    says so. *)
Theorem playTrack_rejected
    (p : Platform) (track : Track) (w : world) :
  (∀ file, source track = local → fileHandle track = Some file →
           getFile_ok p = false →
     playTrack p track None w
       = (Throw, (set_currentTrack (Some track) w.1,
                  AudioEngine.setCurrentTrack track w.2))) ∧
  (∀ url a, truthy_url (streamUrl track) = Some url →
            (source track = local → fileHandle track = None) →
            AudioEngine.isInitialized w.2 = true →
            AudioEngine.audioElement w.2 = Some a →
            play_ok p = false →
     playTrack p track None w
       = (Throw, (set_currentTrack (Some track) w.1,
                  AudioEngine.with_audioElement
                    (Some (AudioEngine.mkAudioElement url 0 0 true))
                    (AudioEngine.setCurrentTrack track w.2))) ∧
     (isPlaying w.1 = true → ¬ playing_in_sync (playTrack p track None w).2)).
Proof.
  split.
  - intros file Hsrc Hfile Hget. unfold playTrack, setTrack.
    cbn [fst snd]. by rewrite Hsrc, Hfile, Hget.
  - intros url a Hurl Hnolocal Hi Ha Hplay.
    assert (Hi1 : AudioEngine.isInitialized
                    (AudioEngine.setCurrentTrack track w.2) = true) by done.
    assert (Ha1 : AudioEngine.audioElement
                    (AudioEngine.setCurrentTrack track w.2) = Some a) by done.
    assert (Hr : playTrack p track None w
      = (Throw, (set_currentTrack (Some track) w.1,
                 AudioEngine.with_audioElement
                   (Some (AudioEngine.mkAudioElement url 0 0 true))
                   (AudioEngine.setCurrentTrack track w.2)))).
    { unfold playTrack. cbn [fst snd].
      rewrite (setTrack_stream p track (w.1, w.2) url Hurl Hnolocal).
      cbn [fst snd]. rewrite (loadStream_ready p url _ a Hi1 Ha1).
      cbn [fst snd]. erewrite play_ready; [|done|reflexivity].
      by rewrite Hplay. }
    split; [done|]. intros Hwas Hsync. rewrite Hr in Hsync.
    specialize (Hsync _ eq_refl). simpl in Hsync. congruence.
Qed.

Lemma playTrack_rejected_witness :
  playTrack (mkPlatform true false true) track_c None (initial, ready_engine)
  = (Throw, (set_currentTrack (Some track_c) initial,
             AudioEngine.setCurrentTrack track_c ready_engine)).
Proof.
  apply (proj1 (playTrack_rejected (mkPlatform true false true) track_c
                  (initial, ready_engine)) "c.mp3");
    reflexivity.
Defined.

(** ** Moving through the queue *)

Section Moves.
Implicit Types (w : world) (p : Platform) (q : list entry).

Lemma track_at_in_range q i track :
  track_at q i = Some track → 0 ≤ i < JsArray.length q.
Proof.
  unfold track_at, JsArray.get, JsArray.length.
  destruct (Z.ltb_spec i 0); [done|].
  destruct (q !! Z.to_nat i) as [x|] eqn:Hx; [|done].
  intros _. apply lookup_lt_Some in Hx. lia.
Qed.

(** Either nothing happened, or the entry at a position was played. *)
Lemma next_cases p random w :
  next p random w = (Normal, w) ∨
  ∃ i track, track_at (queue w.1) i = Some track ∧
             next p random w
               = playTrack p track None (set_queueIndex i w.1, w.2).
Proof.
  unfold next.
  destruct (JsArray.length (queue w.1) =? 0); [by left|].
  destruct (shuffle w.1).
  - destruct (track_at (queue w.1)
                (Qfloor (random * inject_Z (JsArray.length (queue w.1)))))
      as [track|] eqn:Ht; [|by left].
    right. eauto.
  - destruct (JsArray.length (queue w.1) <=? queueIndex w.1 + 1).
    + destruct (repeat w.1); try by left.
      destruct (track_at (queue w.1) 0) as [track|] eqn:Ht; [|by left].
      right. eauto.
    + destruct (track_at (queue w.1) (queueIndex w.1 + 1))
        as [track|] eqn:Ht; [|by left].
      right. eauto.
Qed.

Lemma previous_cases p w :
  previous p w = (Normal, w) ∨
  previous p w = (Normal, (w.1, AudioEngine.seekTo 0 w.2)) ∨
  ∃ i track, track_at (queue w.1) i = Some track ∧
             previous p w
               = playTrack p track None (set_queueIndex i w.1, w.2).
Proof.
  unfold previous.
  destruct (Qgt_bool (progress w.1) 3); [right; by left|].
  destruct (JsArray.length (queue w.1) =? 0); [by left|].
  match goal with
  | |- context [track_at ?q ?i] => destruct (track_at q i) as [track|] eqn:Ht
  end; [|by left].
  right. right. eauto.
Qed.



Lemma seekTo_isInitialized time (e : AudioEngine.t) :
  AudioEngine.isInitialized (AudioEngine.seekTo time e)
  = AudioEngine.isInitialized e.
Proof.
  unfold AudioEngine.seekTo. by destruct (AudioEngine.audioElement e).
Qed.
End Moves.

(** X13.  [next()] and [previous()] never change the queue, and they keep
    the index invariant: from an index that is -1 or a position of the
    queue they lead to one, whatever the shuffle and repeat settings, the
    random number and the platform's answers. *)
Theorem next_previous_keep_queue
    (p : Platform) (random : Q) (w : world) :
  queue (next p random w).2.1 = queue w.1 ∧
  queue (previous p w).2.1 = queue w.1 ∧
  (queue_inv w.1 →
   queue_inv (next p random w).2.1 ∧ queue_inv (previous p w).2.1).
Proof.
  assert (Hplay : ∀ i track,
    track_at (queue w.1) i = Some track →
    queue (playTrack p track None (set_queueIndex i w.1, w.2)).2.1 = queue w.1 ∧
    queue_inv (playTrack p track None (set_queueIndex i w.1, w.2)).2.1).
  { intros i track Ht. apply track_at_in_range in Ht.
    unfold queue_inv. rewrite playTrack_queue, playTrack_queueIndex.
    split; [done|]. by right. }
  destruct (next_cases p random w) as [->|(i & track & Ht & ->)];
    destruct (previous_cases p w) as [->|[->|(i' & track' & Ht' & ->)]];
    repeat match goal with
      | H : track_at _ ?i = Some ?t |- _ =>
          destruct (Hplay i t H) as [-> ?]; clear H
      end;
    cbn [fst snd]; (split; [done|]); (split; [done|]); intros Hinv; by split.
Qed.

Lemma next_previous_keep_queue_witness :
  queue_inv (next willing (9 # 10) (set_shuffle true (three_tracks 0),
                                    ready_engine)).2.1.
Proof.
  apply (next_previous_keep_queue willing (9 # 10)
           (set_shuffle true (three_tracks 0), ready_engine)).
  right. unfold JsArray.length. simpl. lia.
Defined.

(** X15.  At the end of a track with repeat mode "one", the store is left
    as it is and the engine is rewound and told to play: on a cooperative
    platform the element plays again from time 0 with the same source.  In
    any other mode the handler does what [next()] does. *)
Theorem on_ended_repeat_one
    (p : Platform) (random : Q) (w : world) (a : AudioEngine.AudioElement) :
  AudioEngine.isInitialized w.2 = true →
  AudioEngine.audioElement w.2 = Some a →
  (repeat w.1 = one →
   (on_ended p random w).2.1 = w.1 ∧
   (play_ok p = true →
    (on_ended p random w).1 = Normal ∧
    ∃ a', AudioEngine.audioElement (on_ended p random w).2.2 = Some a' ∧
          (AudioEngine.currentTime a' == 0)%Q ∧
          AudioEngine.src a' = AudioEngine.src a ∧
          AudioEngine.paused a' = false)) ∧
  (repeat w.1 ≠ one → on_ended p random w = next p random w).
Proof.
  intros Hi Ha. split.
  - intros Hrep. unfold on_ended. rewrite Hrep.
    destruct (seekTo_0 w.2 a Ha) as (a1 & Ha1 & Ht1 & Hs1 & _).
    rewrite (play_ready p _ a1); [|by rewrite seekTo_isInitialized|done].
    destruct (play_ok p); [|done].
    split; [done|]. intros _. split; [done|].
    eexists. split; [reflexivity|]. simpl. done.
  - intros Hrep. unfold on_ended. by destruct (repeat w.1).
Qed.

Lemma on_ended_repeat_one_witness :
  queueIndex
    (on_ended willing 0
       (playTrack willing track_a None
          (set_repeat one (three_tracks 0), ready_engine)).2).2.1 = 0.
Proof.
  rewrite (proj1 (proj1 (on_ended_repeat_one willing 0
            (playTrack willing track_a None
               (set_repeat one (three_tracks 0), ready_engine)).2
            (AudioEngine.mkAudioElement "https://cdn/a" 0 0 false)
            eq_refl eq_refl) eq_refl)).
  reflexivity.
Defined.



(** ** Play, pause and the mode switches *)

(** X17.  The store's [isPlaying] follows the audio element: after
    [pause()], and after every [play()], [togglePlayPause()] or
    [playTrack()] that completes, [isPlaying] is the negation of the
    element's paused flag.  A [togglePlayPause()] whose [play()] is
    rejected leaves the store untouched, with [isPlaying] false. *)
Theorem isPlaying_follows_element
    (p : Platform) (track : Track) (nq : option (list Track)) (w : world) :
  playing_in_sync (pause w) ∧
  ((play p w).1 = Normal → playing_in_sync (play p w).2) ∧
  ((togglePlayPause p w).1 = Normal →
   playing_in_sync (togglePlayPause p w).2) ∧
  ((playTrack p track nq w).1 = Normal →
   playing_in_sync (playTrack p track nq w).2) ∧
  ((togglePlayPause p w).1 = Throw →
   (togglePlayPause p w).2.1 = w.1 ∧ isPlaying w.1 = false).
Proof.
  assert (Hpause : playing_in_sync (pause w)).
  { intros a. unfold pause, AudioEngine.pause. cbn [fst snd].
    destruct (AudioEngine.audioElement w.2) as [a0|] eqn:Ha0.
    - cbn. intros Ha. by injection Ha as <-.
    - rewrite Ha0. done. }
  assert (Hplay : ∀ s e, (AudioEngine.play p e).1 = Normal →
    playing_in_sync (set_isPlaying true s, (AudioEngine.play p e).2)).
  { intros s e Hn a Ha. cbn [fst snd] in *.
    by rewrite (play_Normal_unpaused p e Hn a Ha). }
  split; [done|]. split; [|split; [|split]].
  - unfold play. pose proof (Hplay w.1 w.2) as H.
    destruct (AudioEngine.play p w.2) as [[] e1]; [|done]. intros _. by apply H.
  - unfold togglePlayPause. destruct (isPlaying w.1); [intros _; exact Hpause|].
    pose proof (Hplay w.1 w.2) as H.
    destruct (AudioEngine.play p w.2) as [[] e1]; [|done]. intros _. by apply H.
  - assert (Hnone : ∀ w0, (playTrack p track None w0).1 = Normal →
              playing_in_sync (playTrack p track None w0).2).
    { intros w0. unfold playTrack.
      destruct (setTrack p track (w0.1, w0.2)) as [[] [s2 e2]]; [|done].
      pose proof (Hplay s2 e2) as H.
      destruct (AudioEngine.play p e2) as [[] e3]; [|done].
      intros _. by apply H. }
    destruct nq as [q|]; [rewrite playTrack_new_queue|]; apply Hnone.
  - unfold togglePlayPause. destruct (isPlaying w.1); [done|].
    by destruct (AudioEngine.play p w.2) as [[] e1].
Qed.

Lemma isPlaying_follows_element_witness :
  playing_in_sync (togglePlayPause willing (initial, ready_engine)).2.
Proof.
  apply (isPlaying_follows_element willing track_a None (initial, ready_engine)).
  reflexivity.
Defined.

(** X18.  On a cooperative platform [togglePlayPause()] alternates: one
    call negates [isPlaying], two calls restore it, and both complete. *)
Theorem togglePlayPause_twice (p : Platform) (w : world) :
  cooperative p → engine_consistent w.2 →
  (togglePlayPause p w).1 = Normal ∧
  isPlaying (togglePlayPause p w).2.1 = negb (isPlaying w.1) ∧
  (togglePlayPause p (togglePlayPause p w).2).1 = Normal ∧
  isPlaying (togglePlayPause p (togglePlayPause p w).2).2.1 = isPlaying w.1.
Proof.
  intros Hp Hcons.
  assert (Hpc : engine_consistent (AudioEngine.pause w.2)).
  { unfold engine_consistent, AudioEngine.pause.
    destruct (AudioEngine.audioElement w.2) eqn:Ha; [by eauto | exact Hcons]. }
  destruct (isPlaying w.1) eqn:Hw.
  - assert (H1 : togglePlayPause p w
      = (Normal, (set_isPlaying false w.1, AudioEngine.pause w.2))).
    { unfold togglePlayPause. by rewrite Hw. }
    rewrite H1. cbn [fst snd]. unfold togglePlayPause.
    cbn [fst snd isPlaying set_isPlaying].
    by destruct (play_cooperative p _ Hp Hpc) as (e' & a & -> & _).
  - destruct (play_cooperative p _ Hp Hcons) as (e' & a & He' & _).
    assert (H1 : togglePlayPause p w = (Normal, (set_isPlaying true w.1, e'))).
    { unfold togglePlayPause. by rewrite Hw, He'. }
    rewrite H1. cbn [fst snd]. unfold togglePlayPause.
    cbn [fst snd isPlaying set_isPlaying]. done.
Qed.

Lemma togglePlayPause_twice_witness :
  isPlaying
    (togglePlayPause willing
       (togglePlayPause willing (initial, ready_engine)).2).2.1 = false.
Proof.
  apply (togglePlayPause_twice willing (initial, ready_engine));
    [repeat split | intros _; eexists; reflexivity].
Defined.

(** X19.  [cycleRepeat()] steps off -> all -> one -> off: it always
    changes the mode, and three calls restore the state.
    [toggleShuffle()] twice restores it as well. *)
Theorem cycleRepeat_period_three (w : world) :
  repeat (cycleRepeat w).1
    = match repeat w.1 with off => all | all => one | one => off end ∧
  repeat (cycleRepeat w).1 ≠ repeat w.1 ∧
  cycleRepeat (cycleRepeat (cycleRepeat w)) = w ∧
  toggleShuffle (toggleShuffle w) = w.
Proof.
  destruct w as [s e]. destruct s. unfold cycleRepeat, toggleShuffle.
  cbn [fst snd repeat shuffle set_repeat set_shuffle].
  split; [|split; [|split]].
  - by destruct repeat0.
  - by destruct repeat0.
  - by destruct repeat0.
  - by rewrite negb_involutive.
Qed.

(** X20.  The persisted part of the state (volume, shuffle, repeat, EQ
    flag, EQ bands and preset name) is changed by none of the transport
    and queue actions, nor by [toggleMute()]: playing, pausing, seeking,
    moving through or editing the queue never alters what is saved. *)
Theorem transport_keeps_persisted
    (p : Platform) (random position x y : Q) (b : bool) (track : Track)
    (nq : option (list Track)) (m : queue_mutation) (w : world) :
  partialize (playTrack p track nq w).2.1 = partialize w.1 ∧
  partialize (next p random w).2.1 = partialize w.1 ∧
  partialize (previous p w).2.1 = partialize w.1 ∧
  partialize (on_ended p random w).2.1 = partialize w.1 ∧
  partialize (togglePlayPause p w).2.1 = partialize w.1 ∧
  partialize (play p w).2.1 = partialize w.1 ∧
  partialize (pause w).1 = partialize w.1 ∧
  partialize (seek position w).1 = partialize w.1 ∧
  partialize (mutate m w).1 = partialize w.1 ∧
  partialize (updateProgress x y w).1 = partialize w.1 ∧
  partialize (on_timeupdate w).1 = partialize w.1 ∧
  partialize (setIsPlaying b w).1 = partialize w.1 ∧
  partialize (toggleMute w).1 = partialize w.1.
Proof.
  assert (Hnext : partialize (next p random w).2.1 = partialize w.1).
  { destruct (next_cases p random w) as [->|(i & t & _ & ->)]; [done|].
    by rewrite playTrack_partialize. }
  split.
  { destruct nq as [q|]; [rewrite playTrack_new_queue|];
      by rewrite playTrack_partialize. }
  split; [done|]. split.
  { destruct (previous_cases p w) as [->|[->|(i & t & _ & ->)]]; [done|done|].
    by rewrite playTrack_partialize. }
  split.
  { unfold on_ended. destruct (repeat w.1); try done.
    by destruct (AudioEngine.play p _). }
  split.
  { unfold togglePlayPause. destruct (isPlaying w.1); [done|].
    by destruct (AudioEngine.play p w.2) as [[] e1]. }
  split.
  { unfold play. by destruct (AudioEngine.play p w.2) as [[] e1]. }
  split; [done|]. split; [done|]. split.
  { by destruct m. }
  split; [done|]. split.
  { unfold on_timeupdate. by destruct (AudioEngine.audioElement w.2). }
  split; [done|]. unfold toggleMute. by destruct (muted w.1).
Qed.

(** ** Editing the queue *)

Section QueueEdits.
Implicit Types (w : world) (q : list entry).

Lemma delete_last q (x : entry) : delete (length q) (q ++ [x]) = q.
Proof. induction q as [|y q IH]; [done|]. simpl. by rewrite IH. Qed.

Lemma delete_inserted q (k : nat) (x : entry) :
  (k ≤ length q)%nat → delete k (take k q ++ x :: drop k q) = q.
Proof.
  revert k. induction q as [|y q IH]; intros k Hk.
  - destruct k; [done | simpl in Hk; lia].
  - destruct k as [|k]; [done|]. simpl. f_equal. apply IH. simpl in Hk. lia.
Qed.

Lemma insert_deleted q (k : nat) (x : entry) :
  q !! k = Some x → take k (delete k q) ++ x :: drop k (delete k q) = q.
Proof.
  revert k. induction q as [|y q IH]; intros k Hk; [done|].
  destruct k as [|k]; simpl in *.
  - injection Hk as ->. by rewrite drop_0.
  - f_equal. by apply IH.
Qed.

Lemma world_unchanged w q i :
  q = queue w.1 → i = queueIndex w.1 →
  (set_queue_queueIndex q i w.1, w.2) = w.
Proof. intros -> ->. destruct w as [s e]. by destruct s. Qed.

Lemma reorderQueue_Permutation w fromIndex toIndex :
  0 ≤ fromIndex < JsArray.length (queue w.1) →
  queue (reorderQueue fromIndex toIndex w).1 ≡ₚ queue w.1.
Proof.
  intros Hf. unfold JsArray.length in Hf.
  destruct (lookup_lt_is_Some_2 (queue w.1) (Z.to_nat fromIndex)) as [x Hx];
    [lia|].
  unfold reorderQueue.
  rewrite (splice_remove _ _ _ (proj1 Hf) Hx). cbv beta iota zeta.
  destruct (splice_insert_any (delete (Z.to_nat fromIndex) (queue w.1))
              toIndex (mjoin (head [x]))) as [k ->].
  cbn [fst queue set_queue_queueIndex].
  rewrite insert_at_Permutation. simpl.
  symmetry. by apply delete_Permutation.
Qed.

Lemma Forall_filter_from (P : entry → Prop) f q : ∀ i,
  Forall P q → Forall P (JsArray.filter_from f i q).
Proof.
  induction q as [|x q IH]; intros i Hq; [done|].
  apply Forall_cons in Hq as [Hx Hq]. simpl.
  destruct (f x i); [apply Forall_cons; split; [done|]|]; by apply IH.
Qed.
End QueueEdits.

(** X21.  Removing the entry that [addToQueue] has just appended undoes
    the addition: on a state whose index is -1 or a position of the queue,
    [removeFromQueue(queue.length)] after [addToQueue(track)] gives back
    the state. *)
Theorem addToQueue_then_remove (track : Track) (w : world) :
  queue_inv w.1 →
  removeFromQueue (JsArray.length (queue w.1)) (addToQueue track w) = w.
Proof.
  intros Hinv. unfold removeFromQueue, addToQueue, queue_inv in *.
  cbn [fst snd queue queueIndex set_queue set_queue_queueIndex].
  unfold JsArray.length in *.
  rewrite filter_index_delete by lia. rewrite Nat2Z.id, delete_last.
  destruct (Z.ltb_spec (Z.of_nat (length (queue w.1))) (queueIndex w.1)); [lia|].
  destruct (Z.eqb_spec (Z.of_nat (length (queue w.1))) (queueIndex w.1)); [lia|].
  cbn [andb]. destruct w as [s e]. by destruct s.
Qed.

Lemma addToQueue_then_remove_witness :
  removeFromQueue 3 (addToQueue track_a (three_tracks 2, ready_engine))
  = (three_tracks 2, ready_engine).
Proof.
  apply (addToQueue_then_remove track_a (three_tracks 2, ready_engine)).
  right. unfold JsArray.length. simpl. lia.
Defined.

(** X22.  Moving an entry onto its own position changes nothing, and
    moving it back undoes the move: for positions [i], [from] and [to] of
    the queue, [reorderQueue(i, i)] and [reorderQueue(from, to)] followed
    by [reorderQueue(to, from)] give back the state, index included. *)
Theorem reorderQueue_round_trip (fromIndex toIndex : Z) (w : world) :
  0 ≤ fromIndex < JsArray.length (queue w.1) →
  0 ≤ toIndex < JsArray.length (queue w.1) →
  reorderQueue fromIndex fromIndex w = w ∧
  reorderQueue toIndex fromIndex (reorderQueue fromIndex toIndex w) = w.
Proof.
  intros Hf Ht. unfold JsArray.length in Hf, Ht.
  destruct (lookup_lt_is_Some_2 (queue w.1) (Z.to_nat fromIndex)) as [x Hx];
    [lia|].
  split.
  - rewrite reorderQueue_other_fields. apply world_unchanged.
    + rewrite (reorderQueue_queue w fromIndex fromIndex x) by (done || lia).
      by apply insert_deleted.
    + rewrite reorderQueue_queueIndex.
      destruct (Z.eqb_spec (queueIndex w.1) fromIndex); [done|].
      destruct (Z.ltb_spec fromIndex (queueIndex w.1)),
        (Z.leb_spec (queueIndex w.1) fromIndex),
        (Z.ltb_spec (queueIndex w.1) fromIndex),
        (Z.leb_spec fromIndex (queueIndex w.1)); cbn [andb]; lia.
  - set (w1 := reorderQueue fromIndex toIndex w).
    assert (Hlen : length (delete (Z.to_nat fromIndex) (queue w.1))
                   = (length (queue w.1) - 1)%nat)
      by (apply length_delete_pos; lia).
    assert (Hq1 : queue w1.1
      = take (Z.to_nat toIndex) (delete (Z.to_nat fromIndex) (queue w.1))
        ++ x :: drop (Z.to_nat toIndex)
                  (delete (Z.to_nat fromIndex) (queue w.1)))
      by (apply reorderQueue_queue; done || lia).
    assert (Hx1 : queue w1.1 !! Z.to_nat toIndex = Some x).
    { rewrite Hq1, lookup_insert_at by lia.
      destruct (decide _); [lia|]. by destruct (decide _). }
    assert (Hw1 : w1.2 = w.2 ∧
                  set_queue_queueIndex (queue w.1) (queueIndex w.1) w1.1 = w.1).
    { unfold w1. rewrite (reorderQueue_other_fields w fromIndex toIndex).
      cbn [fst snd]. split; [done|]. by destruct w.1. }
    rewrite (reorderQueue_other_fields w1 toIndex fromIndex).
    assert (Hq2 : queue (reorderQueue toIndex fromIndex w1).1 = queue w.1).
    { rewrite (reorderQueue_queue w1 toIndex fromIndex x) by (done || lia).
      rewrite Hq1, delete_inserted by lia. by apply insert_deleted. }
    assert (Hi2 : queueIndex (reorderQueue toIndex fromIndex w1).1
                  = queueIndex w.1).
    { rewrite reorderQueue_queueIndex. unfold w1.
      rewrite reorderQueue_queueIndex.
      destruct (Z.eqb_spec (queueIndex w.1) fromIndex) as [Heq|Hne].
      - by rewrite Z.eqb_refl.
      - destruct (Z.ltb_spec fromIndex (queueIndex w.1)),
          (Z.leb_spec (queueIndex w.1) toIndex),
          (Z.ltb_spec (queueIndex w.1) fromIndex),
          (Z.leb_spec toIndex (queueIndex w.1)); cbn [andb];
          repeat match goal with
            | |- context [?a =? ?b] => destruct (Z.eqb_spec a b)
            | |- context [?a <? ?b] => destruct (Z.ltb_spec a b)
            | |- context [?a <=? ?b] => destruct (Z.leb_spec a b)
            end; cbn [andb]; lia. }
    rewrite Hq2, Hi2. destruct Hw1 as [-> Hs].
    destruct w as [s e]. cbn [fst snd] in *. rewrite <- Hs at 3.
    by destruct w1.1.
Qed.

Lemma reorderQueue_round_trip_witness :
  reorderQueue 2 0 (reorderQueue 0 2 (three_tracks 1, ready_engine))
  = (three_tracks 1, ready_engine).
Proof.
  apply (reorderQueue_round_trip 0 2 (three_tracks 1, ready_engine));
    unfold JsArray.length; simpl; lia.
Defined.

(** X23.  A queue of tracks stays a queue of tracks: [addToQueue],
    [removeFromQueue] with any index, [clearQueue] and [reorderQueue] from
    a position of the queue to any target never leave an [undefined]
    entry behind. *)
Theorem mutations_keep_queue_of_tracks (m : queue_mutation) (w : world) :
  queue_of_tracks w.1 →
  match m with
  | ReorderQueue fromIndex _ => 0 ≤ fromIndex < JsArray.length (queue w.1)
  | _ => True
  end →
  queue_of_tracks (mutate m w).1.
Proof.
  intros Htracks Hm. unfold queue_of_tracks in *.
  destruct m as [track|index|fromIndex toIndex|]; cbn [mutate].
  - simpl. apply Forall_app. split; [done|]. repeat constructor. by eexists.
  - simpl. by apply Forall_filter_from.
  - by rewrite reorderQueue_Permutation.
  - by apply Forall_nil.
Qed.

Lemma mutations_keep_queue_of_tracks_witness :
  queue_of_tracks
    (mutate (ReorderQueue 2 (-5)) (three_tracks 0, ready_engine)).1.
Proof.
  apply (mutations_keep_queue_of_tracks (ReorderQueue 2 (-5))
           (three_tracks 0, ready_engine)).
  - repeat constructor; eexists; reflexivity.
  - unfold JsArray.length. simpl. lia.
Defined.

(** X24.  Removing the current entry.  The queue loses exactly that entry;
    if another entry followed, the index stays and now denotes it; if the
    current entry was the last, the index moves to the new last entry, or
    to -1 when the queue becomes empty.  The store's current track,
    [isPlaying] and the engine are not touched: what was playing goes on
    playing. *)
Theorem removeFromQueue_current (w : world) :
  0 ≤ queueIndex w.1 < JsArray.length (queue w.1) →
  queue (removeFromQueue (queueIndex w.1) w).1
    = delete (Z.to_nat (queueIndex w.1)) (queue w.1) ∧
  JsArray.length (queue (removeFromQueue (queueIndex w.1) w).1)
    = JsArray.length (queue w.1) - 1 ∧
  (queueIndex w.1 + 1 < JsArray.length (queue w.1) →
   queueIndex (removeFromQueue (queueIndex w.1) w).1 = queueIndex w.1 ∧
   current_entry (removeFromQueue (queueIndex w.1) w).1
     = JsArray.get (queue w.1) (queueIndex w.1 + 1)) ∧
  (queueIndex w.1 + 1 = JsArray.length (queue w.1) →
   queueIndex (removeFromQueue (queueIndex w.1) w).1 = queueIndex w.1 - 1 ∧
   current_entry (removeFromQueue (queueIndex w.1) w).1
     = JsArray.get (queue w.1) (queueIndex w.1 - 1)) ∧
  currentTrack (removeFromQueue (queueIndex w.1) w).1 = currentTrack w.1 ∧
  isPlaying (removeFromQueue (queueIndex w.1) w).1 = isPlaying w.1 ∧
  (removeFromQueue (queueIndex w.1) w).2 = w.2.
Proof.
  intros Hi. unfold current_entry, removeFromQueue.
  cbn [fst snd queue queueIndex currentTrack isPlaying set_queue_queueIndex].
  rewrite filter_index_delete by lia. unfold JsArray.length in *.
  rewrite length_delete_pos by lia.
  rewrite Z.ltb_irrefl, Z.eqb_refl. cbn [andb].
  split; [done|]. split; [lia|]. split; [|split].
  - intros Hnext.
    destruct (Z.leb_spec (Z.of_nat (length (queue w.1) - 1)) (queueIndex w.1));
      [lia|].
    split; [done|]. rewrite !get_nonneg by lia.
    rewrite list_lookup_delete_ge by lia. f_equal. lia.
  - intros Hlast.
    destruct (Z.leb_spec (Z.of_nat (length (queue w.1) - 1)) (queueIndex w.1));
      [|lia].
    split; [lia|].
    replace (Z.of_nat (length (queue w.1) - 1) - 1) with (queueIndex w.1 - 1)
      by lia.
    destruct (Z.eq_dec (queueIndex w.1) 0) as [H0|H0].
    + rewrite H0. done.
    + rewrite !get_nonneg by lia. apply list_lookup_delete_lt. lia.
  - done.
Qed.

Lemma removeFromQueue_current_witness :
  queueIndex (removeFromQueue 2 (three_tracks 2, ready_engine)).1 = 1 ∧
  current_entry (removeFromQueue 2 (three_tracks 2, ready_engine)).1
    = Some (Some track_b).
Proof.
  destruct (removeFromQueue_current (three_tracks 2, ready_engine))
    as (_ & _ & _ & Hlast & _); [unfold JsArray.length; simpl; lia|].
  destruct Hlast as [Hidx Hcur]; [reflexivity|].
  split; [exact Hidx | exact Hcur].
Defined.

(** ** The store's equaliser actions *)

Section StoreEQ.
Implicit Types (w : world) (gains : list Q).

Lemma spread_Number gains :
  JsArray.spread (JsArray.Number <$> gains) = JsArray.Number <$> gains.
Proof.
  apply spread_numbers. apply Forall_fmap. by apply Forall_true.
Qed.

Lemma assign_in_range gains index gain :
  0 ≤ index < JsArray.length gains →
  JsArray.length gains ≤ JsArray.max_index + 1 →
  JsArray.assign (JsArray.Number <$> gains) index gain
  = JsArray.Number <$> <[Z.to_nat index := gain]> gains.
Proof.
  unfold JsArray.length. intros Hi Hmax. unfold JsArray.assign, JsArray.length.
  rewrite length_fmap.
  destruct (Z.ltb_spec index 0); [lia|].
  destruct (Z.ltb_spec JsArray.max_index index); [lia|].
  destruct (Z.ltb_spec index (Z.of_nat (length gains))); [|lia].
  cbn [orb]. by rewrite list_fmap_insert.
Qed.

Lemma setEQBands_from_app (l1 l2 : list JsArray.slot) : ∀ index e,
  AudioEngine.setEQBands_from index (l1 ++ l2) e
  = match AudioEngine.setEQBands_from index l1 e with
    | (Normal, e1) =>
        AudioEngine.setEQBands_from (index + Z.of_nat (length l1)) l2 e1
    | (Throw, e1) => (Throw, e1)
    end.
Proof.
  induction l1 as [|s l1 IH]; intros index e.
  - simpl. by rewrite Z.add_0_r.
  - cbn [app AudioEngine.setEQBands_from length].
    destruct (AudioEngine.setEQBand_slot index s e) as [[] e1]; [|done].
    rewrite IH. by replace (index + 1 + Z.of_nat (length l1))
      with (index + Z.of_nat (S (length l1))) by lia.
Qed.
End StoreEQ.

(** X25.  The graph mirrors the store.  If the stored bands are numbers
    and the graph's gains are those numbers clamped, then after
    [setEQBand(index, gain)] with a band position the same holds for the
    vector with [gain] at [index]: one stored band changed, its filter got
    the clamped gain, and the length stayed.  [applyEQPreset] with the
    name of a preset puts a 10-band graph and the store in that relation,
    whatever they held before. *)
Theorem graph_mirrors_store
    (w : world) (gains : list Q) (index : Z) (gain : Q) :
  (eq_mirrored w gains →
   0 ≤ index < JsArray.length gains →
   JsArray.length gains ≤ JsArray.max_index + 1 →
   eq_mirrored (setEQBand index gain w) (<[Z.to_nat index := gain]> gains) ∧
   length (eqBands (setEQBand index gain w).1) = length (eqBands w.1)) ∧
  (∀ preset,
     preset ∈ AudioEngine.EQ_PRESETS →
     length (AudioEngine.eqNodes w.2) = 10%nat →
     eq_mirrored (applyEQPreset (name preset) w).2 (bands preset)).
Proof.
  split.
  - intros [Hbands Hnodes] Hi Hmax. unfold eq_mirrored, setEQBand.
    cbn [fst snd eqBands set_eqBands_eqPresetName].
    rewrite Hbands, spread_Number, assign_in_range by done.
    split; [split; [done|]|by rewrite !length_fmap, length_insert].
    rewrite setEQBand_in_range
      by (unfold JsArray.length in *; by rewrite Hnodes, length_fmap).
    cbn [AudioEngine.eqNodes AudioEngine.with_eqNodes].
    by rewrite Hnodes, list_fmap_insert.
  - intros preset Hin Hten.
    destruct (preset_well_formed preset Hin) as [Hlen Hrange].
    unfold eq_mirrored, applyEQPreset, AudioEngine.applyPreset.
    rewrite (find_preset_name preset Hin).
    rewrite setEQBands_numbers by congruence.
    cbn [fst snd eqBands set_eqBands_eqPresetName AudioEngine.eqNodes
           AudioEngine.with_eqNodes].
    split; [done|]. fold clamped_gain.
    reflexivity.
Qed.

Lemma graph_mirrors_store_witness :
  eq_mirrored
    (setEQBand 2 (-15) (applyEQPreset "Pop" (initial, ready_engine)).2)
    [-1; 1; -15; 4; 3; 1; 0; 1; 2; 2]%Q.
Proof.
  apply (proj1 (graph_mirrors_store
                  (applyEQPreset "Pop" (initial, ready_engine)).2
                  [-1; 1; 3; 4; 3; 1; 0; 1; 2; 2]%Q 2 (-15))).
  - apply (proj2 (graph_mirrors_store (initial, ready_engine) [] 0 0)
             (mkEQPreset "Pop" [-1; 1; 3; 4; 3; 1; 0; 1; 2; 2]%Q));
      [do 6 apply list_elem_of_further; apply list_elem_of_here | reflexivity].
  - unfold JsArray.length. simpl. lia.
  - unfold JsArray.length, JsArray.max_index. simpl. lia.
Defined.

(** X26.  Editing while the equaliser is bypassed.  With [eqEnabled]
    false and every band of the graph at 0, [setEQBand(index, gain)] with
    a band position writes the clamped gain into that filter, and
    [applyEQPreset] with the name of a preset writes the whole preset into
    a 10-band graph; [eqEnabled] stays false either way. *)
Theorem edit_while_bypassed
    (w : world) (index : Z) (gain : Q) :
  eqEnabled w.1 = false →
  Forall (λ g, g = 0%Q) (AudioEngine.eqNodes w.2) →
  (0 ≤ index < JsArray.length (AudioEngine.eqNodes w.2) →
   eqEnabled (setEQBand index gain w).1 = false ∧
   AudioEngine.eqNodes (setEQBand index gain w).2 !! Z.to_nat index
     = Some (clamped_gain gain) ∧
   ∀ (k : nat) g, k ≠ Z.to_nat index →
     AudioEngine.eqNodes (setEQBand index gain w).2 !! k = Some g → g = 0%Q) ∧
  (∀ preset,
     preset ∈ AudioEngine.EQ_PRESETS →
     length (AudioEngine.eqNodes w.2) = 10%nat →
     eqEnabled (applyEQPreset (name preset) w).2.1 = false ∧
     AudioEngine.eqNodes (applyEQPreset (name preset) w).2.2 = bands preset).
Proof.
  intros Hoff Hzero. split.
  - intros Hi. unfold setEQBand. cbn [fst snd eqEnabled set_eqBands_eqPresetName].
    split; [done|]. rewrite setEQBand_in_range by done.
    cbn [AudioEngine.eqNodes AudioEngine.with_eqNodes].
    unfold JsArray.length in Hi. split.
    + apply list_lookup_insert_eq. lia.
    + intros k g Hk Hg. rewrite list_lookup_insert_ne in Hg by done.
      by apply (proj1 (Forall_lookup _ _) Hzero k g).
  - intros preset Hin Hten.
    destruct (preset_well_formed preset Hin) as [Hlen Hrange].
    unfold applyEQPreset, AudioEngine.applyPreset.
    rewrite (find_preset_name preset Hin).
    rewrite setEQBands_numbers by congruence.
    cbn [fst snd eqEnabled set_eqBands_eqPresetName AudioEngine.eqNodes
           AudioEngine.with_eqNodes].
    split; [done|]. by apply clamp_gains_inside.
Qed.

Lemma edit_while_bypassed_witness :
  let w := (toggleEQ (initial, ready_engine)).2 in
  eqEnabled (setEQBand 0 6 w).1 = false ∧
  AudioEngine.eqNodes (setEQBand 0 6 w).2 !! 0%nat = Some 6%Q.
Proof.
  intros w.
  destruct (proj1 (edit_while_bypassed w 0 6 eq_refl
                     ltac:(repeat constructor)))
    as (Hoff & Hband & _); [unfold JsArray.length; simpl; lia|].
  split; [exact Hoff | exact Hband].
Defined.

(** X27.  The store's [setEQBands(gains)].  With a vector of numbers it
    completes, stores the vector as given and leaves the preset name as it
    was, so the name of an earlier preset stays on display.  If the vector
    holds an [undefined] at a position of the graph, the call throws
    there: the store is left unchanged and the graph keeps the bands
    written before that position. *)
Theorem store_setEQBands
    (w : world) (gains : list Q) (rest : list JsArray.slot) :
  (setEQBands (JsArray.Number <$> gains) w).1 = Normal ∧
  eqBands (setEQBands (JsArray.Number <$> gains) w).2.1
    = JsArray.Number <$> gains ∧
  eqPresetName (setEQBands (JsArray.Number <$> gains) w).2.1
    = eqPresetName w.1 ∧
  ((length gains < length (AudioEngine.eqNodes w.2))%nat →
   setEQBands ((JsArray.Number <$> gains) ++ JsArray.Undefined :: rest) w
   = (Throw,
      (w.1, (AudioEngine.setEQBands (JsArray.Number <$> gains) w.2).2))).
Proof.
  pose proof (setEQBands_numbers_any gains w.2) as Hnum.
  unfold setEQBands. rewrite Hnum. cbn [fst snd].
  split; [done|]. split; [done|]. split; [done|].
  intros Hshort. unfold AudioEngine.setEQBands in *.
  rewrite setEQBands_from_app, Hnum, length_fmap.
  cbn [AudioEngine.setEQBands_from AudioEngine.setEQBand_slot
         AudioEngine.eqNodes AudioEngine.with_eqNodes].
  assert (Hin : (0 <=? 0 + Z.of_nat (length gains))
                && (0 + Z.of_nat (length gains)
                    <? JsArray.length
                         ((clamped_gain
                           <$> take (length (AudioEngine.eqNodes w.2)) gains)
                          ++ drop (length gains) (AudioEngine.eqNodes w.2)))
                = true).
  { unfold JsArray.length.
    rewrite length_app, length_fmap, length_take, length_drop.
    apply andb_true_intro. split; [apply Z.leb_le | apply Z.ltb_lt]; lia. }
  by rewrite Hin.
Qed.

Lemma store_setEQBands_witness :
  setEQBands [JsArray.Number 3; JsArray.Undefined; JsArray.Number 5]
    (initial, ready_engine)
  = (Throw,
     (initial,
      AudioEngine.with_eqNodes [3; 0; 0; 0; 0; 0; 0; 0; 0; 0]%Q ready_engine)).
Proof.
  apply (proj2 (proj2 (proj2 (store_setEQBands (initial, ready_engine)
                                [3%Q] [JsArray.Number 5])))).
  simpl. lia.
Defined.

(** ** The current lyric line *)

Section Lyrics.
Import LyricsService.
Implicit Types (ls : list LyricLine) (t : Q).

Lemma last_started_spec ls t : ∀ n : nat,
  (n ≤ length ls)%nat →
  (last_started ls t n = -1 ∧
   ∀ (i : nat) l, (i < n)%nat → ls !! i = Some l → (t < time l)%Q) ∨
  (∃ (r : nat) l,
     last_started ls t n = Z.of_nat r ∧ (r < n)%nat ∧
     ls !! r = Some l ∧ (time l <= t)%Q ∧
     ∀ (i : nat) l', (r < i < n)%nat → ls !! i = Some l' → (t < time l')%Q).
Proof.
  induction n as [|n IH]; intros Hn.
  - left. split; [done|]. intros i l Hi. lia.
  - cbn [last_started].
    destruct (lookup_lt_is_Some_2 ls n) as [l Hl]; [lia|]. rewrite Hl.
    destruct (Qle_bool (time l) t) eqn:Hle.
    + right. exists n, l. apply Qle_bool_iff in Hle.
      split; [done|]. split; [lia|]. split; [done|]. split; [done|].
      intros i l' Hi. lia.
    + apply Qle_bool_false in Hle.
      destruct IH as [[Hr Hall]|(r & l0 & Hr & Hrn & Hl0 & Hle0 & Hafter)];
        [lia| |].
      * left. split; [done|]. intros i l' Hi Hl'.
        destruct (decide (i = n)) as [->|Hne].
        -- rewrite Hl in Hl'. by injection Hl' as <-.
        -- apply (Hall i l'); [lia | done].
      * right. exists r, l0.
        split; [done|]. split; [lia|]. split; [done|]. split; [done|].
        intros i l' Hi Hl'. destruct (decide (i = n)) as [->|Hne].
        -- rewrite Hl in Hl'. by injection Hl' as <-.
        -- apply (Hafter i l'); [lia | done].
Qed.
End Lyrics.

(** X28.  [getCurrentLine] returns -1 for lyrics that are not synced and,
    for synced lyrics, exactly when no line has started (in particular
    when there are no lines); otherwise it returns the position of the last
    line whose time is at most the current time: that line has started and
    every later line has not.  The result always lies between -1 and the
    last position. *)
Theorem getCurrentLine_last_started
    (lyrics : LyricsService.Lyrics) (currentTime : Q) :
  -1 ≤ LyricsService.getCurrentLine lyrics currentTime
     < JsArray.length (LyricsService.lines lyrics) ∧
  (LyricsService.synced lyrics = false →
   LyricsService.getCurrentLine lyrics currentTime = -1) ∧
  (LyricsService.synced lyrics = true →
   (LyricsService.getCurrentLine lyrics currentTime = -1 ↔
    ∀ l, l ∈ LyricsService.lines lyrics →
         (currentTime < LyricsService.time l)%Q) ∧
   (0 ≤ LyricsService.getCurrentLine lyrics currentTime →
    ∃ l,
      LyricsService.lines lyrics
        !! Z.to_nat (LyricsService.getCurrentLine lyrics currentTime) = Some l ∧
      (LyricsService.time l <= currentTime)%Q ∧
      ∀ (i : nat) l',
        (Z.to_nat (LyricsService.getCurrentLine lyrics currentTime) < i)%nat →
        LyricsService.lines lyrics !! i = Some l' →
        (currentTime < LyricsService.time l')%Q)).
Proof.
  unfold LyricsService.getCurrentLine, JsArray.length.
  destruct (LyricsService.synced lyrics); cbn [negb orb]; [|split; [lia|done]].
  destruct (Z.eqb_spec (Z.of_nat (length (LyricsService.lines lyrics))) 0)
    as [Hempty|Hne].
  { assert (Hnil : LyricsService.lines lyrics = [])
      by (destruct (LyricsService.lines lyrics); [done | simpl in Hempty; lia]).
    split; [lia|]. split; [done|]. intros _. split; [|lia].
    split; [|done]. intros _ l Hl. rewrite Hnil in Hl.
    by apply elem_of_nil in Hl. }
  destruct (last_started_spec (LyricsService.lines lyrics) currentTime
              (length (LyricsService.lines lyrics)) (le_n _))
    as [[-> Hall]|(r & l & -> & Hr & Hl & Hle & Hafter)].
  - split; [lia|]. split; [done|]. intros _. split; [|lia].
    split; [|done]. intros _ l Hl.
    apply list_elem_of_lookup in Hl as [i Hi].
    apply (Hall i l); [|done]. by apply lookup_lt_Some in Hi.
  - split; [lia|]. split; [done|]. intros _. split.
    + split; [lia|]. intros Hall. exfalso.
      apply (Qlt_not_le _ _ (Hall l (list_elem_of_lookup_2 _ _ _ Hl)) Hle).
    + intros _. rewrite Nat2Z.id. exists l. split; [done|]. split; [done|].
      intros i l' Hi Hl'. apply (Hafter i l'); [|done].
      apply lookup_lt_Some in Hl'. lia.
Qed.

Lemma getCurrentLine_last_started_witness :
  LyricsService.getCurrentLine
    (LyricsService.mkLyrics "a" false
       [LyricsService.mkLyricLine 0 "la"] (Some "lrclib")) 5 = -1.
Proof.
  apply (proj1 (proj2 (getCurrentLine_last_started
           (LyricsService.mkLyrics "a" false
              [LyricsService.mkLyricLine 0 "la"] (Some "lrclib")) 5))).
  reflexivity.
Defined.

(** X29.  The current line never moves backwards as time advances: for
    [t <= t'], [getCurrentLine(lyrics, t) <= getCurrentLine(lyrics, t')],
    whether or not the lines are sorted by time. *)
Theorem getCurrentLine_monotone
    (lyrics : LyricsService.Lyrics) (t t' : Q) :
  (t <= t')%Q →
  LyricsService.getCurrentLine lyrics t ≤ LyricsService.getCurrentLine lyrics t'.
Proof.
  intros Htt. unfold LyricsService.getCurrentLine.
  destruct (negb (LyricsService.synced lyrics)
            || (JsArray.length (LyricsService.lines lyrics) =? 0)); [done|].
  destruct (last_started_spec (LyricsService.lines lyrics) t
              (length (LyricsService.lines lyrics)) (le_n _))
    as [[-> _]|(r & l & -> & Hr & Hl & Hle & _)];
    destruct (last_started_spec (LyricsService.lines lyrics) t'
                (length (LyricsService.lines lyrics)) (le_n _))
      as [[-> Hall']|(r' & l' & -> & Hr' & Hl' & Hle' & Hafter')];
    try lia.
  - exfalso. apply (Qlt_not_le _ _ (Hall' r l Hr Hl)).
    by apply (Qle_trans _ t).
  - destruct (decide (r ≤ r')%nat); [lia|]. exfalso.
    apply (Qlt_not_le _ _ (Hafter' r l ltac:(lia) Hl)).
    by apply (Qle_trans _ t).
Qed.

Lemma getCurrentLine_monotone_witness :
  LyricsService.getCurrentLine
    (LyricsService.mkLyrics "a" true
       [LyricsService.mkLyricLine 1 "one"; LyricsService.mkLyricLine 4 "two";
        LyricsService.mkLyricLine 9 "three"] None) 3
  ≤ LyricsService.getCurrentLine
      (LyricsService.mkLyrics "a" true
         [LyricsService.mkLyricLine 1 "one"; LyricsService.mkLyricLine 4 "two";
          LyricsService.mkLyricLine 9 "three"] None) (19 # 2).
Proof.
  apply (getCurrentLine_monotone
           (LyricsService.mkLyrics "a" true
              [LyricsService.mkLyricLine 1 "one";
               LyricsService.mkLyricLine 4 "two";
               LyricsService.mkLyricLine 9 "three"] None) 3 (19 # 2)).
  discriminate.
Defined.

Example getCurrentLine_between_lines :
  LyricsService.getCurrentLine
    (LyricsService.mkLyrics "a" true
       [LyricsService.mkLyricLine 1 "one"; LyricsService.mkLyricLine 4 "two";
        LyricsService.mkLyricLine 9 "three"] None) (9 # 2) = 1.
Proof. reflexivity. Qed.
